(** * node-fn: function combinators ([src/fn.js])

    A shallow embedding of the six combinators exported by [fn.js]
    ([when], [debounce], [counts], [arglock], [times], [rateLimit]) and
    the properties of their invocation policies.

    Modelling conventions.
    - A JavaScript value is a [value]; numbers are the integer-valued
      doubles ([VNum z], exact while [|z| < 2^53]) and [VNaN].  The counters
      of [debounce] and [counts] start at 0 and only move by [++], so they
      stay in that fragment for fewer than 2^53 calls.
    - Functions supplied by the caller are opaque: [VFun f] names one, and
      [fenv f] is what running it does to the caller's own state [S] (it
      may return or throw).  Library closures keep their variables in the
      [world]'s private stores, which caller functions cannot reach.
    - Every invocation the library makes of a caller function is recorded
      in the [log], with the receiver and the argument list it was given.
    - [fn.js] has no ['use strict']: every function it defines is a
      non-strict one, whose [this] is the receiver it was called on after the
      language's coercion ([sloppy_this]): the global object for [undefined]
      and [null], the wrapper object for any other primitive, the receiver
      itself for an object.  That [this] is what a wrapped function passes on
      to its target.
    - A caller function acts on the caller's state only.  A target that
      calls a wrapped function or a handle back while it runs is, for a
      [rateLimit] instance, its invocation followed by those calls in the
      event loop's sequence of actions.
    - Code runs in the monad [M]: state passing over [world], with
      [Throw] for exceptions. *)

From stdpp Require Import gmap strings list fin_maps.
From Equations Require Import Equations.
From Stdlib Require Import ZArith Lia.

Local Open Scope Z_scope.

(** ** Values *)

Definition fn_id := nat.
Definition timer_id := nat.
Definition loc := nat.

#[warnings="-register-all"]
Inductive value : Type :=
| VUndefined
| VNull
| VBool (b : bool)
| VNum (z : Z)
| VNaN
| VStr (s : string)
| VObj (o : nat)
| VArray (l : list value)
| VError (name message : string)
| VFun (f : fn_id)
| VClear (timeoutId : timer_id)
| VGlobal
| VBoxed (v : value).

(** [typeof v] *)
Definition typeof (v : value) : string :=
  match v with
  | VUndefined => "undefined"
  | VNull => "object"
  | VBool _ => "boolean"
  | VNum _ | VNaN => "number"
  | VStr _ => "string"
  | VObj _ | VArray _ | VError _ _ | VGlobal | VBoxed _ => "object"
  | VFun _ | VClear _ => "function"
  end.

(** ToBoolean, as used by [if (...)]. *)
Definition truthy (v : value) : bool :=
  match v with
  | VUndefined | VNull | VNaN => false
  | VBool b => b
  | VNum z => negb (z =? 0)
  | VStr s => negb (String.eqb s "")
  | VObj _ | VArray _ | VError _ _ | VFun _ | VClear _
  | VGlobal | VBoxed _ => true
  end.

(** The [this] of a non-strict function called on receiver [v]:
    [undefined] and [null] become the global object ([VGlobal]), any other
    primitive its wrapper object ([VBoxed]), and an object stays itself. *)
Definition sloppy_this (v : value) : value :=
  match v with
  | VUndefined | VNull => VGlobal
  | VBool _ | VNum _ | VNaN | VStr _ => VBoxed v
  | VObj _ | VArray _ | VError _ _ | VFun _ | VClear _
  | VGlobal | VBoxed _ => v
  end.

(** [a % b] on integer-valued numbers: the sign follows the dividend, and
    a zero divisor gives NaN. *)
Definition js_rem (a b : Z) : value :=
  if b =? 0 then VNaN else VNum (Z.rem a b).

(** [v === n] for a number literal [n]. *)
Definition strict_eq_num (v : value) (n : Z) : bool :=
  match v with
  | VNum z => z =? n
  | _ => false
  end.

(** ** Outcomes, events, the world *)

Inductive outcome (A : Type) : Type :=
| Ret (a : A)
| Throw (e : value).
Arguments Ret {A} a.
Arguments Throw {A} e.

Inductive event : Type :=
| Invoke (f : fn_id) (this : value) (args : list value).

(** What [setTimeout] is given.  [LimitedCb] is the closure created by
    [limited], [function(){ fn.apply(this, args); }], with the variables
    it captures and the [rateLimit] activation [env] it was created in;
    [HostCb] is a callback of the caller's own, unrelated to the library. *)
Inductive callback : Type :=
| LimitedCb (env : loc) (fn : value) (args : list value)
| HostCb (f : fn_id) (args : list value).

(** ** A sample caller

    Caller state: a tick.  Function 0 returns the tick and advances it;
    function 1 is a toggle, true on even ticks; function 2 returns the tick
    while it is below 2 and throws ["boom"] from then on, advancing it either
    way; any other function returns [undefined]. *)
Definition demo_fenv (f : fn_id) (this : value) (args : list value) (s : Z)
    : outcome value * Z :=
  match f with
  | 0%nat => (Ret (VNum s), s + 1)
  | 1%nat => (Ret (VBool (Z.even s)), s + 1)
  | 2%nat => if 2 <=? s then (Throw (VStr "boom"), s + 1)
             else (Ret (VNum s), s + 1)
  | _ => (Ret VUndefined, s)
  end.

Section Fn.

Context {S : Type}.

(** What the caller's functions do: receiver, arguments, caller state. *)
Variable fenv : fn_id -> value -> list value -> S -> outcome value * S.

(** The receiver the host passes to a timer callback. *)
Variable timer_this : value.

Record world : Type := World {
  host : S;
  log : list event;
  counters : gmap loc Z;
  clears : gmap loc value;
  timers : gmap timer_id (callback * Z);
  next_timer : timer_id
}.

Definition M (A : Type) : Type := world -> outcome A * world.

Definition ret {A} (a : A) : M A := fun w => (Ret a, w).

Definition throw {A} (e : value) : M A := fun w => (Throw e, w).

Definition bind {A B} (m : M A) (k : A -> M B) : M B :=
  fun w =>
    match m w with
    | (Ret a, w') => k a w'
    | (Throw e, w') => (Throw e, w')
    end.

Notation "x <- m ;; k" := (bind m (fun x => k))
  (at level 100, m at next level, right associativity).
Notation "m ;;; k" := (bind m (fun _ => k))
  (at level 100, right associativity).

(** A function object, seen through what calling it does with a receiver
    and an argument list.  The combinators that only ever call their
    function arguments ([when], [debounce], [counts], [times]) take them in
    this form, so that the closures [debounce] and [counts] build can be
    passed to [when] as the source does; [call] below gives the form of a
    first-order value.  [arglock] inspects its argument with [typeof] and
    [rateLimit] stores it in a timer callback, so these two take values. *)
Definition callable : Type := value -> list value -> M value.

(** *** Primitive operations on the world *)

Definition set_host (s : S) (w : world) : world :=
  World s (log w) (counters w) (clears w) (timers w) (next_timer w).

Definition set_log (l : list event) (w : world) : world :=
  World (host w) l (counters w) (clears w) (timers w) (next_timer w).

Definition set_counters (c : gmap loc Z) (w : world) : world :=
  World (host w) (log w) c (clears w) (timers w) (next_timer w).

Definition set_clears (c : gmap loc value) (w : world) : world :=
  World (host w) (log w) (counters w) c (timers w) (next_timer w).

Definition emit (e : event) : M unit :=
  fun w => (Ret tt, set_log (log w ++ [e]) w).

(** Run the body of a caller function on the caller's state. *)
Definition run_host (f : fn_id) (this : value) (args : list value) : M value :=
  fun w =>
    let '(r, s) := fenv f this args (host w) in
    (r, set_host s w).

(** [clearTimeout(id)]: forget the timer if it is still pending. *)
Definition clearTimeout (id : timer_id) : M unit :=
  fun w =>
    (Ret tt,
     World (host w) (log w) (counters w) (clears w)
           (delete id (timers w)) (next_timer w)).

(** [setTimeout(cb, delay)]: a fresh id, never handed out before. *)
Definition setTimeout (cb : callback) (delay : Z) : M timer_id :=
  fun w =>
    let id := next_timer w in
    (Ret id,
     World (host w) (log w) (counters w) (clears w)
           (<[id := (cb, delay)]> (timers w)) (Datatypes.S id)).

(** Closure variables.  [var count = 0] and [var clear] allocate a cell
    that only the closures of that activation can name.  A closure reads
    only cells its own activation allocated, so the defaults in [get_counter]
    and [get_clear] are never met in a run that starts at a factory. *)
Definition alloc_counter (init : Z) : M loc :=
  fun w =>
    let l := fresh (dom (counters w)) in
    (Ret l, set_counters (<[l := init]> (counters w)) w).

Definition get_counter (l : loc) : M Z :=
  fun w => (Ret (counters w !!! l), w).

Definition put_counter (l : loc) (c : Z) : M unit :=
  fun w => (Ret tt, set_counters (<[l := c]> (counters w)) w).

Definition alloc_clear (init : value) : M loc :=
  fun w =>
    let l := fresh (dom (clears w)) in
    (Ret l, set_clears (<[l := init]> (clears w)) w).

Definition get_clear (l : loc) : M value :=
  fun w => (Ret (default VUndefined (clears w !! l)), w).

Definition put_clear (l : loc) (v : value) : M unit :=
  fun w => (Ret tt, set_clears (<[l := v]> (clears w)) w).

Definition not_a_function : value := VError "TypeError" "not a function".

(** [f.apply(this, args)] (or [f()], with no receiver) for a first-order
    value [f]: a caller function is logged and run, the handle [VClear]
    runs its body [clearTimeout(timeoutId);], and anything else is not
    callable. *)
Definition call (f : value) : callable :=
  fun this args =>
    match f with
    | VFun id => emit (Invoke id this args) ;;; run_host id this args
    | VClear timeoutId => clearTimeout timeoutId ;;; ret VUndefined
    | _ => throw not_a_function
    end.

(** ** [when(check, fn, args ...)]  (fn.js 44-52)

    [args] is [[].slice.call(arguments, 2)]; the returned function calls
    [check()] and, on a truthy value, [fn.apply(this, args.concat(...))],
    where [this] is its own, non-strict, [this]. *)

Definition when (check fn : callable) (args : list value) : callable :=
  fun this arguments =>
    c <- check VUndefined [] ;;
    if truthy c then fn (sloppy_this this) (args ++ arguments)
    else ret VUndefined.

(** ** [debounce(every, fn, args ...)]  (fn.js 80-90) *)

(** The closure [debouncer], over the variables [count] and [every]:
    [count ++; return count % every === 0;]. *)
Definition debouncer (count : loc) (every : Z) : callable :=
  fun _ _ =>
    c <- get_counter count ;;
    put_counter count (c + 1) ;;;
    c <- get_counter count ;;
    ret (VBool (strict_eq_num (js_rem c every) 0)).

(** [when.apply(this, [debouncer, fn].concat(args))]: [when] makes no use
    of its own receiver. *)
Definition debounce (every : Z) (fn : callable) (args : list value) : M callable :=
  count <- alloc_counter 0 ;;
  ret (when (debouncer count every) fn args).

(** ** [counts(times, fn, args ...)]  (fn.js 115-127) *)

(** The closure [counter], over the variables [count] and [times]:
    [if (count == times) return true; count ++; return false;].  On two
    numbers [==] is numeric equality. *)
Definition counter (count : loc) (times : Z) : callable :=
  fun _ _ =>
    c <- get_counter count ;;
    if c =? times then ret (VBool true)
    else
      put_counter count (c + 1) ;;;
      ret (VBool false).

Definition counts (times : Z) (fn : callable) (args : list value) : M callable :=
  count <- alloc_counter 0 ;;
  ret (when (counter count times) fn args).

(** ** [arglock(fn, args ...)]  (fn.js 142-153)

    [args[0]] of an empty array is [undefined]; [args.shift()] takes the
    first element out and leaves the rest in [args]. *)

Definition arglock_error : value :=
  VError "Error" "first argument must be a function".

Definition arglock (arguments : list value) : M callable :=
  let args := arguments in
  if (length args =? 0)%nat
     || negb (String.eqb (typeof (nth 0 args VUndefined)) "function")
  then throw arglock_error
  else
    let fn := nth 0 args VUndefined in
    let args := tail args in
    ret (fun this arguments => call fn (sloppy_this this) (args ++ arguments)).

(** ** [times(count, fn, args ...)]  (fn.js 175-188) *)

(** The [for] loop of [multiplied], from index [i] with [results] so far. *)
Equations? times_loop (count : Z) (fn : callable) (args : list value)
    (this : value) (i : Z) (results : list value) (w : world)
    : outcome (list value) * world by wf (Z.to_nat (count - i)) lt :=
  times_loop count fn args this i results w with Z_lt_dec i count := {
    | left _ with fn this args w := {
        | (Ret r, w') => times_loop count fn args this (i + 1) (results ++ [r]) w'
        | (Throw e, w') => (Throw e, w') }
    | right _ => (Ret results, w) }.
Proof. lia. Qed.

(** The closure [multiplied], over [count], [fn] and [args]; the [this]
    of [fn.apply(this, args)] is its own, non-strict, [this]. *)
Definition multiplied (count : Z) (fn : callable) (args : list value) : callable :=
  fun this _ =>
    results <- times_loop count fn args (sloppy_this this) 0 [] ;;
    ret (VArray results).

Definition times (count : Z) (fn : callable) (args : list value) : callable :=
  multiplied count fn args.

(** ** [rateLimit(wait, fn)]  (fn.js 213-233) *)

(** The closure [limited], over the variable [clear] and [wait], [fn].
    The handle it returns is the closure [clear], [VClear timeoutId]. *)
Definition limited (clear : loc) (wait : Z) (fn : value) : callable :=
  fun _ arguments =>
    c <- get_clear clear ;;
    (if truthy c then call c VUndefined [] else ret VUndefined) ;;;
    let args := arguments in
    timeoutId <- setTimeout (LimitedCb clear fn args) wait ;;
    put_clear clear (VClear timeoutId) ;;;
    ret (VClear timeoutId).

Definition rateLimit (wait : Z) (fn : value) : M callable :=
  clear <- alloc_clear VUndefined ;;
  ret (limited clear wait fn).

(** ** Callers *)

(** The events logged between two worlds of one run. *)
Definition new_events (w w' : world) : list event :=
  drop (length (log w)) (log w').

(** A caller that calls [f] once per entry of [calls] (receiver and
    arguments), going on after an exception as a [try]/[catch] around each
    call would, and keeps for each call its outcome and the invocations it
    caused. *)
Fixpoint run_calls (f : callable) (calls : list (value * list value))
    (w : world) : list (outcome value * list event) * world :=
  match calls with
  | [] => ([], w)
  | (this, args) :: rest =>
      let '(r, w') := f this args w in
      let '(obs, w'') := run_calls f rest w' in
      ((r, new_events w w') :: obs, w'')
  end.

(** All invocations seen by a caller, in order. *)
Definition invocations (obs : list (outcome value * list event)) : list event :=
  concat (map snd obs).

(** The caller function [f] invoked [n] times in a row on the caller's
    state, each time on [this] with [args]: the values returned, in order,
    up to the first exception if there is one, that exception, and the
    state reached. *)
Fixpoint repeat_host (f : fn_id) (this : value) (args : list value)
    (n : nat) (s : S) : list value * option value * S :=
  match n with
  | O => ([], None, s)
  | Datatypes.S n' =>
      match fenv f this args s with
      | (Ret v, s') =>
          let '(vs, e, s'') := repeat_host f this args n' s' in
          (v :: vs, e, s'')
      | (Throw e, s') => ([], Some e, s')
      end
  end.

(** ** The event loop around a [rateLimit] instance *)

(** Running a timer callback on the receiver the host gives it.  The
    body of [LimitedCb] is [fn.apply(this, args);], with the callback's own,
    non-strict, [this], and returns nothing. *)
Definition run_callback (cb : callback) : M value :=
  match cb with
  | LimitedCb _ fn args => call fn (sloppy_this timer_this) args ;;; ret VUndefined
  | HostCb f args => call (VFun f) timer_this args
  end.

(** The host fires the pending timer [id]: it leaves the table, then its
    callback runs.  A timer that is not pending cannot fire. *)
Definition fire (id : timer_id) (w : world) : option (outcome value * world) :=
  match timers w !! id with
  | None => None
  | Some (cb, _) =>
      Some (run_callback cb
              (World (host w) (log w) (counters w) (clears w)
                     (delete id (timers w)) (next_timer w)))
  end.

(** What can happen around an instance, whose wrapped function is [f],
    between two turns of the loop.
    Firing is allowed for any pending timer at any turn, which covers every
    real-time schedule; [CallHandle id] calls the handle [VClear id] (every
    handle [f] ever returned has this form); [HostSetTimeout] is a timer of
    the caller's own.  A target that calls the wrapped function or a handle
    while it runs is seen as its firing followed by those calls. *)
Inductive action : Type :=
| CallWrapped (this : value) (args : list value)
| CallHandle (id : timer_id)
| TimerFires (id : timer_id)
| HostSetTimeout (g : fn_id) (args : list value) (delay : Z).

Definition step (f : callable) (a : action) (w : world) : option world :=
  match a with
  | CallWrapped this args => Some (f this args w).2
  | CallHandle id => Some (call (VClear id) VUndefined [] w).2
  | TimerFires id => snd <$> fire id w
  | HostSetTimeout g args d => Some (setTimeout (HostCb g args) d w).2
  end.

Fixpoint run (f : callable) (acts : list action) (w : world) : option world :=
  match acts with
  | [] => Some w
  | a :: rest =>
      match step f a w with
      | Some w' => run f rest w'
      | None => None
      end
  end.

(** Is this timer a scheduled invocation made by the instance [env]? *)
Definition owned_by (env : loc) (t : callback * Z) : bool :=
  match t.1 with
  | LimitedCb e _ _ => bool_decide (e = env)
  | HostCb _ _ => false
  end.

(** The scheduled invocations of instance [env] that are outstanding. *)
Definition outstanding (env : loc) (w : world) : gmap timer_id (callback * Z) :=
  filter (fun kv => owned_by env kv.2 = true) (timers w).

(** A world in which instances can be created: pending timers carry ids
    already handed out, and a pending [LimitedCb] belongs to an activation
    that exists. *)
Definition wf_world (w : world) : Prop :=
  forall id cb d, timers w !! id = Some (cb, d) ->
    (id < next_timer w)%nat /\
    match cb with
    | LimitedCb e _ _ => is_Some (clears w !! e)
    | HostCb _ _ => True
    end.

(** The invariant of instance [env]: its variable [clear] is [undefined]
    or a handle; pending ids have been handed out; and a scheduled invocation
    of the instance that is still pending is the one [clear] cancels. *)
Definition rl_inv (env : loc) (w : world) : Prop :=
  (clears w !! env = Some VUndefined \/
   exists id, clears w !! env = Some (VClear id)) /\
  (forall id t, timers w !! id = Some t -> (id < next_timer w)%nat) /\
  (forall id t, timers w !! id = Some t -> owned_by env t = true ->
     clears w !! env = Some (VClear id)).

(** Values on which [.apply] cannot be found: [undefined] and [null] have
    no properties at all, and booleans, numbers and strings have no [apply]
    of their own or on their prototypes. *)
Definition primitive (v : value) : bool :=
  match v with
  | VUndefined | VNull | VBool _ | VNum _ | VNaN | VStr _ => true
  | VObj _ | VArray _ | VError _ _ | VFun _ | VClear _
  | VGlobal | VBoxed _ => false
  end.


(** How many of the timer firings of a run, started in [w], fire a
    scheduled invocation of instance [env]. *)
Fixpoint own_firings (env : loc) (f : callable) (acts : list action)
    (w : world) : nat :=
  match acts with
  | [] => 0
  | a :: rest =>
      match step f a w with
      | Some w' =>
          (match a with
           | TimerFires id =>
               match outstanding env w !! id with
               | Some _ => 1
               | None => 0
               end
           | _ => 0
           end + own_firings env f rest w')%nat
      | None => 0%nat
      end
  end.

(** The handle kept in [clear] names a timer that was handed out and, if
    it is still pending, is a scheduled invocation of the instance. *)
Definition clear_owned (env : loc) (w : world) : Prop :=
  forall old : timer_id, clears w !! env = Some (VClear old) ->
    (old < next_timer w)%nat /\
    forall t, timers w !! old = Some t -> owned_by env t = true.

(** * Properties *)

(** ** Calling a caller function *)

Lemma call_fun (f : fn_id) (this : value) (args : list value) (w : world) :
  call (VFun f) this args w =
  (fst (fenv f this args (host w)),
   World (snd (fenv f this args (host w))) (log w ++ [Invoke f this args])
         (counters w) (clears w) (timers w) (next_timer w)).
Proof.
  unfold call, bind, emit, run_host, set_log, set_host; simpl.
  destruct (fenv f this args (host w)) as [[r|e] s]; reflexivity.
Qed.

(** ** [when] *)

(** C2 (amended).  One call of [when(p, t, ...bound)] with receiver
    [this] and arguments [callArgs] evaluates [p()] exactly once, first and
    with no arguments.  If the value is truthy, [t] is invoked once, with
    [bound ++ callArgs] and, as receiver, the wrapped function's own [this]:
    the caller's receiver when that is an object, the global object when it is
    [undefined] or [null], the wrapper object of any other primitive; the
    outcome of [t] is the outcome of the call.  If the value is falsy, [t] is
    not invoked and the call returns [undefined].  (If [p] throws, the
    exception is the outcome and [t] is not invoked.) *)
Theorem when_dispatch (p t : fn_id) (bound callArgs : list value)
    (this : value) (w : world) (r : outcome value) (s1 : S) :
  fenv p VUndefined [] (host w) = (r, s1) ->
  (forall c, r = Ret c -> truthy c = true ->
   when (call (VFun p)) (call (VFun t)) bound this callArgs w =
   (fst (fenv t (sloppy_this this) (bound ++ callArgs) s1),
    World (snd (fenv t (sloppy_this this) (bound ++ callArgs) s1))
          (log w ++ [Invoke p VUndefined []; Invoke t (sloppy_this this) (bound ++ callArgs)])
          (counters w) (clears w) (timers w) (next_timer w)))
  /\
  (forall c, r = Ret c -> truthy c = false ->
   when (call (VFun p)) (call (VFun t)) bound this callArgs w =
   (Ret VUndefined,
    World s1 (log w ++ [Invoke p VUndefined []])
          (counters w) (clears w) (timers w) (next_timer w)))
  /\
  (forall e, r = Throw e ->
   when (call (VFun p)) (call (VFun t)) bound this callArgs w =
   (Throw e,
    World s1 (log w ++ [Invoke p VUndefined []])
          (counters w) (clears w) (timers w) (next_timer w))).
Proof.
  intros Hp. unfold when, bind. rewrite call_fun, Hp. cbn [fst snd].
  split; [|split].
  - intros c -> ->.
    rewrite call_fun. cbn [host log counters clears timers next_timer].
    rewrite <- app_assoc. reflexivity.
  - intros c -> ->. reflexivity.
  - intros e ->. reflexivity.
Qed.

(** ** Callers: a Hoare-style rule for [run_calls] *)

Lemma new_events_app (w w' : world) (evs : list event) :
  log w' = log w ++ evs -> new_events w w' = evs.
Proof. intros E. unfold new_events. rewrite E. apply drop_app_length. Qed.

(** If every call keeps an invariant indexed by the number of calls made
    so far and establishes [P] for what the caller sees of it, then a
    sequence of calls does so at every position. *)
Lemma run_calls_inv (f : callable) (I : nat -> world -> Prop)
    (P : nat -> value -> list value -> outcome value -> list event -> Prop) :
  (forall k this args w, I k w ->
     I (Datatypes.S k) (f this args w).2 /\
     P k this args (f this args w).1 (new_events w (f this args w).2)) ->
  forall calls k0 w, I k0 w ->
    I (k0 + length calls)%nat (run_calls f calls w).2 /\
    length (run_calls f calls w).1 = length calls /\
    forall k this args, calls !! k = Some (this, args) ->
      exists r evs, (run_calls f calls w).1 !! k = Some (r, evs) /\
                    P (k0 + k)%nat this args r evs.
Proof.
  intros Hstep calls. induction calls as [|[th a] rest IH]; intros k0 w Hw.
  - simpl. rewrite Nat.add_0_r. repeat split; [done|]. intros k ? ? Hk.
    by rewrite lookup_nil in Hk.
  - simpl. destruct (Hstep k0 th a w Hw) as [Hinv HP].
    destruct (f th a w) as [r w'] eqn:Ef. simpl in Hinv, HP.
    destruct (IH (Datatypes.S k0) w' Hinv) as (Hfin & Hlen & Hobs).
    destruct (run_calls f rest w') as [obs w''] eqn:Er. simpl in *.
    split; [by rewrite Nat.add_succ_r|].
    split; [by rewrite Hlen|].
    intros [|k] this args Hk; simpl in Hk.
    + inversion Hk; subst. exists r, (new_events w w'). split; [done|].
      by rewrite Nat.add_0_r.
    + destruct (Hobs k this args Hk) as (r' & evs & Hl & Hp).
      exists r', evs. split; [done|]. by rewrite Nat.add_succ_r.
Qed.

(** ** Caller functions cannot reach closure variables *)

Lemma call_counters (v this : value) (args : list value) (w : world) :
  counters (call v this args w).2 = counters w.
Proof.
  destruct v; try reflexivity.
  rewrite call_fun. reflexivity.
Qed.

(** ** [debounce] *)

Lemma debounce_alloc (every : Z) (fn : callable) (args : list value) (w : world) :
  let l := fresh (dom (counters w)) in
  debounce every fn args w =
    (Ret (when (debouncer l every) fn args),
     set_counters (<[l := 0]> (counters w)) w) /\
  counters w !! l = None.
Proof.
  split; [reflexivity|].
  apply not_elem_of_dom, is_fresh.
Qed.

(** One call of the wrapped function: the counter moves first, then the
    target runs when the new count is a multiple of [every]. *)
Lemma debounced_call (l : loc) (every : Z) (t : value) (bound : list value)
    (this : value) (args : list value) (w : world) :
  let c := (counters w !!! l) + 1 in
  let w1 := set_counters (<[l := c]> (counters w)) w in
  when (debouncer l every) (call t) bound this args w =
    if strict_eq_num (js_rem c every) 0
    then call t (sloppy_this this) (bound ++ args) w1
    else (Ret VUndefined, w1).
Proof.
  unfold when, debouncer, bind, get_counter, put_counter, ret; simpl.
  rewrite lookup_total_insert_eq.
  destruct (strict_eq_num _ 0); reflexivity.
Qed.

Lemma debounced_call_counter (l : loc) (every : Z) (t : value)
    (bound : list value) (this : value) (args : list value) (w : world) (c : Z) :
  counters w !! l = Some c ->
  counters (when (debouncer l every) (call t) bound this args w).2 !! l
  = Some (c + 1).
Proof.
  intros Hc. rewrite debounced_call. rewrite (lookup_total_correct _ _ _ Hc).
  destruct (strict_eq_num _ 0); [rewrite call_counters|]; simpl;
    apply lookup_insert_eq.
Qed.

Lemma debounced_call_events (l : loc) (every : Z) (t : fn_id)
    (bound : list value) (this : value) (args : list value) (w : world) (c : Z) :
  counters w !! l = Some c ->
  new_events w (when (debouncer l every) (call (VFun t)) bound this args w).2
  = if strict_eq_num (js_rem (c + 1) every) 0
    then [Invoke t (sloppy_this this) (bound ++ args)] else [].
Proof.
  intros Hc. rewrite debounced_call. rewrite (lookup_total_correct _ _ _ Hc).
  destruct (strict_eq_num _ 0).
  - rewrite call_fun. by apply new_events_app.
  - apply new_events_app. simpl. by rewrite app_nil_r.
Qed.

(** The test [count % every === 0] on a positive period and a count that
    is not negative: divisibility. *)
Lemma fires_iff_divides (N a : Z) :
  0 < N -> strict_eq_num (js_rem a N) 0 = true <-> (N | a).
Proof.
  intros HN. unfold js_rem, strict_eq_num.
  destruct (Z.eqb_spec N 0) as [|_]; [lia|].
  rewrite Z.eqb_eq. apply Z.rem_divide. lia.
Qed.

Lemma div_succ_fires (N c : Z) :
  0 < N -> 0 <= c ->
  (c + 1) / N = c / N + (if strict_eq_num (js_rem (c + 1) N) 0 then 1 else 0).
Proof.
  intros HN Hc.
  destruct (strict_eq_num (js_rem (c + 1) N) 0) eqn:E.
  - apply fires_iff_divides in E as [q Hq]; [|done].
    assert (c = (q - 1) * N + (N - 1)) as Hc' by lia.
    rewrite Hq, Z.div_mul by lia.
    rewrite Hc' at 1. rewrite Z.div_add_l by lia.
    rewrite (Z.div_small (N - 1) N) by lia. lia.
  - assert (~ (N | c + 1)) as Hnd.
    { intros Hd. apply fires_iff_divides in Hd; [congruence|done]. }
    pose proof (Z.div_mod c N ltac:(lia)) as Hdm.
    pose proof (Z.mod_pos_bound c N HN) as Hb.
    assert (c `mod` N + 1 < N) as Hlt.
    { destruct (decide (c `mod` N + 1 = N)) as [Heq|]; [|lia].
      exfalso. apply Hnd. exists (c / N + 1). lia. }
    symmetry. rewrite Z.add_0_r.
    apply (Z.div_unique_pos (c + 1) N (c / N) (c `mod` N + 1)); lia.
Qed.

Lemma debounce_count (l : loc) (N : Z) (t : fn_id) (bound : list value) :
  0 < N ->
  forall calls w c, 0 <= c -> counters w !! l = Some c ->
    Z.of_nat (length (invocations
      (run_calls (when (debouncer l N) (call (VFun t)) bound) calls w).1))
    = (c + Z.of_nat (length calls)) / N - c / N.
Proof.
  intros HN calls. induction calls as [|[th a] rest IH]; intros w c Hc Hl.
  - simpl. rewrite Z.add_0_r. lia.
  - simpl.
    pose proof (debounced_call_events l N t bound th a w c Hl) as Hev.
    pose proof (debounced_call_counter l N (VFun t) bound th a w c Hl) as Hcn.
    destruct (when _ _ _ th a w) as [r w'] eqn:Ew. simpl in Hev, Hcn.
    specialize (IH w' (c + 1) ltac:(lia) Hcn).
    destruct (run_calls _ rest w') as [obs w''] eqn:Er. simpl in IH.
    unfold invocations in *. simpl. rewrite length_app, Nat2Z.inj_add, IH, Hev.
    rewrite (div_succ_fires N c HN Hc).
    replace (c + Z.of_nat (Datatypes.S (length rest)))
      with (c + 1 + Z.of_nat (length rest)) by lia.
    destruct (strict_eq_num _ 0); simpl length; lia.
Qed.

(** C3.  For a positive integer period [N], the wrapped function of
    [debounce(N, t, ...bound)] called [length calls] times invokes [t] on
    exactly the calls whose 1-based number is a multiple of [N] (with that
    call's [this] and [bound] followed by its arguments), and so
    [length calls / N] times in all. *)
Theorem debounce_fires_every_nth (N : Z) (t : fn_id) (bound : list value)
    (calls : list (value * list value)) (w0 : world) :
  0 < N ->
  exists f w1,
    debounce N (call (VFun t)) bound w0 = (Ret f, w1) /\
    length (run_calls f calls w1).1 = length calls /\
    (forall k this args, calls !! k = Some (this, args) ->
       exists r evs,
         (run_calls f calls w1).1 !! k = Some (r, evs) /\
         ((N | Z.of_nat k + 1) -> evs = [Invoke t (sloppy_this this) (bound ++ args)]) /\
         (~ (N | Z.of_nat k + 1) -> evs = [])) /\
    Z.of_nat (length (invocations (run_calls f calls w1).1))
    = Z.of_nat (length calls) / N.
Proof.
  intros HN.
  destruct (debounce_alloc N (call (VFun t)) bound w0) as [Hd Hfresh].
  set (l := fresh (dom (counters w0))) in *.
  eexists _, _. split; [exact Hd|].
  set (w1 := set_counters _ w0).
  assert (counters w1 !! l = Some 0) as H0 by apply lookup_insert_eq.
  pose proof (run_calls_inv (when (debouncer l N) (call (VFun t)) bound)
    (fun k w => counters w !! l = Some (Z.of_nat k))
    (fun k this args _ evs =>
       evs = if strict_eq_num (js_rem (Z.of_nat k + 1) N) 0
             then [Invoke t (sloppy_this this) (bound ++ args)] else [])) as Hrule.
  destruct (Hrule ltac:(
    intros k th a w Hk; split;
    [ rewrite (debounced_call_counter l N (VFun t) bound th a w _ Hk);
      f_equal; lia
    | apply (debounced_call_events l N t bound th a w _ Hk) ])
    calls 0%nat w1 H0) as (_ & Hlen & Hobs).
  split; [exact Hlen|]. split.
  - intros k this args Hk. destruct (Hobs k this args Hk) as (r & evs & Hl & He).
    exists r, evs. split; [exact Hl|]. simpl in He.
    destruct (strict_eq_num _ 0) eqn:E.
    + split; [done|]. intros Hn. exfalso. apply Hn.
      by apply fires_iff_divides in E.
    + split; [|done]. intros Hd'. apply fires_iff_divides in Hd'; [|done].
      congruence.
  - rewrite (debounce_count l N t bound HN calls w1 0 ltac:(lia) H0).
    rewrite Z.add_0_l, Zdiv_0_l. lia.
Qed.

(** C8.  The private counter of a [debounce(every, t)] instance is a
    fresh cell that starts at 0; every call of the wrapped function adds
    exactly 1 to it, whether or not the target fires and whatever the call's
    outcome, so after any sequence of calls it holds the number of calls made;
    and no function of the caller can change it. *)
Theorem debounce_counter_increments (every : Z) (t : value)
    (bound : list value) (w0 : world) :
  exists l f w1,
    debounce every (call t) bound w0 = (Ret f, w1) /\
    counters w0 !! l = None /\
    counters w1 !! l = Some 0 /\
    (forall w c this args, counters w !! l = Some c ->
       counters (f this args w).2 !! l = Some (c + 1)) /\
    (forall calls,
       counters (run_calls f calls w1).2 !! l = Some (Z.of_nat (length calls))) /\
    (forall v this args w, counters (call v this args w).2 = counters w).
Proof.
  destruct (debounce_alloc every (call t) bound w0) as [Hd Hfresh].
  set (l := fresh (dom (counters w0))) in *.
  exists l. eexists _, _. split; [exact Hd|]. split; [exact Hfresh|].
  assert (forall w c this args, counters w !! l = Some c ->
    counters (when (debouncer l every) (call t) bound this args w).2 !! l
    = Some (c + 1)) as Hstep.
  { intros w c this args Hc. by apply debounced_call_counter. }
  split; [apply lookup_insert_eq|]. split; [exact Hstep|]. split.
  - intros calls.
    destruct (run_calls_inv (when (debouncer l every) (call t) bound)
      (fun k w => counters w !! l = Some (Z.of_nat k))
      (fun _ _ _ _ _ => True)) with (calls := calls) (k0 := 0%nat)
      (w := set_counters (<[l := 0]> (counters w0)) w0) as (Hfin & _).
    + intros k th a w Hk. split; [|done]. rewrite (Hstep w _ th a Hk).
      f_equal. lia.
    + apply lookup_insert_eq.
    + exact Hfin.
  - intros v this args w. apply call_counters.
Qed.

Lemma debounce_zero_call (l : loc) (t : value) (bound : list value)
    (this : value) (args : list value) (w : world) :
  when (debouncer l 0) (call t) bound this args w
  = (Ret VUndefined, set_counters (<[l := (counters w !!! l) + 1]> (counters w)) w).
Proof. by rewrite debounced_call. Qed.

(** C10.  The wrapped function of [debounce(0, t)] never invokes the
    target: whatever [t] is and however often it is called, every call
    returns [undefined] with no invocation, and the log and the caller's
    state are left as they were. *)
Theorem debounce_zero_never_fires (t : value) (bound : list value)
    (calls : list (value * list value)) (w0 : world) :
  exists f w1,
    debounce 0 (call t) bound w0 = (Ret f, w1) /\
    (run_calls f calls w1).1 = repeat (Ret VUndefined, []) (length calls) /\
    log (run_calls f calls w1).2 = log w0 /\
    host (run_calls f calls w1).2 = host w0.
Proof.
  destruct (debounce_alloc 0 (call t) bound w0) as [Hd _].
  set (l := fresh (dom (counters w0))) in *.
  eexists _, _. split; [exact Hd|].
  assert (forall calls w,
    (run_calls (when (debouncer l 0) (call t) bound) calls w).1
      = repeat (Ret VUndefined, []) (length calls) /\
    log (run_calls (when (debouncer l 0) (call t) bound) calls w).2 = log w /\
    host (run_calls (when (debouncer l 0) (call t) bound) calls w).2 = host w)
    as Hrun.
  { clear. intros calls. induction calls as [|[th a] rest IH]; intros w.
    - done.
    - cbn [run_calls]. rewrite debounce_zero_call.
      destruct (IH (set_counters (<[l := (counters w !!! l) + 1]> (counters w)) w))
        as (Ho & Hl & Hh).
      destruct (run_calls _ rest _) as [obs w'']. simpl in *.
      rewrite Ho. split; [|done]. f_equal. f_equal.
      apply new_events_app. simpl. by rewrite app_nil_r. }
  apply (Hrun calls (set_counters (<[l := 0]> (counters w0)) w0)).
Qed.

(** ** [counts] *)

Lemma counts_alloc (times : Z) (fn : callable) (args : list value) (w : world) :
  let l := fresh (dom (counters w)) in
  counts times fn args w =
    (Ret (when (counter l times) fn args),
     set_counters (<[l := 0]> (counters w)) w).
Proof. reflexivity. Qed.

(** One call of the wrapped function: [counter] answers true, and so the
    target runs, exactly when the count has reached [times]; otherwise the
    count moves and the target does not run. *)
Lemma counted_call (l : loc) (K : Z) (t : value) (bound : list value)
    (this : value) (args : list value) (w : world) :
  when (counter l K) (call t) bound this args w =
    if (counters w !!! l) =? K
    then call t (sloppy_this this) (bound ++ args) w
    else (Ret VUndefined,
          set_counters (<[l := (counters w !!! l) + 1]> (counters w)) w).
Proof.
  unfold when, counter, bind, get_counter, put_counter, ret; simpl.
  destruct (_ =? K); reflexivity.
Qed.

(** C1 (what the code does).  For a limit [K >= 0], the wrapped function of
    [counts(K, t, ...bound)] stays silent on its first [K] calls, returning
    [undefined] without invoking [t], and invokes [t] on every call after the
    [K]-th. *)
Theorem counts_fires_only_after_limit (K : Z) (t : fn_id) (bound : list value)
    (calls : list (value * list value)) (w0 : world) :
  0 <= K ->
  exists f w1,
    counts K (call (VFun t)) bound w0 = (Ret f, w1) /\
    length (run_calls f calls w1).1 = length calls /\
    forall k this args, calls !! k = Some (this, args) ->
      exists r evs,
        (run_calls f calls w1).1 !! k = Some (r, evs) /\
        (Z.of_nat k < K -> r = Ret VUndefined /\ evs = []) /\
        (K <= Z.of_nat k -> evs = [Invoke t (sloppy_this this) (bound ++ args)]).
Proof.
  intros HK. rewrite counts_alloc.
  set (l := fresh (dom (counters w0))).
  eexists _, _. split; [reflexivity|].
  destruct (run_calls_inv (when (counter l K) (call (VFun t)) bound)
    (fun k w => counters w !! l = Some (Z.min (Z.of_nat k) K))
    (fun k this args r evs =>
       (Z.of_nat k < K -> r = Ret VUndefined /\ evs = []) /\
       (K <= Z.of_nat k -> evs = [Invoke t (sloppy_this this) (bound ++ args)])))
    with (calls := calls) (k0 := 0%nat)
         (w := set_counters (<[l := 0]> (counters w0)) w0) as (_ & Hlen & Hobs).
  - intros k th a w Hk. rewrite counted_call.
    rewrite (lookup_total_correct _ _ _ Hk).
    destruct (Z.eqb_spec (Z.min (Z.of_nat k) K) K) as [E|E].
    + rewrite call_fun. simpl. split; [rewrite Hk; f_equal; lia|].
      split; [lia|]. intros _. by apply new_events_app.
    + simpl. split; [rewrite lookup_insert_eq; f_equal; lia|].
      split; [|lia]. intros _. split; [done|].
      apply new_events_app. simpl. by rewrite app_nil_r.
  - simpl. rewrite lookup_insert_eq. f_equal. lia.
  - split; [exact Hlen|]. exact Hobs.
Qed.

(** ** [arglock] *)

(** C5.  [arglock] throws while it is being called, before any wrapped
    function exists, exactly when it is given no argument or a first
    argument that is not a function; given a function it returns a wrapped
    function, which forwards its own [this] and the bound arguments followed
    by the call's own.  Either way the world is left as it was. *)
Theorem arglock_validates (arguments : list value) (w : world) :
  (arglock arguments w = (Throw arglock_error, w) <->
   arguments = [] \/
   exists v rest, arguments = v :: rest /\ typeof v <> "function") /\
  (forall fn bound, arguments = fn :: bound -> typeof fn = "function" ->
   exists f, arglock arguments w = (Ret f, w) /\
     forall this callArgs w',
       f this callArgs w' = call fn (sloppy_this this) (bound ++ callArgs) w').
Proof.
  unfold arglock. destruct arguments as [|v rest]; simpl.
  - split; [|discriminate]. split; [by left|done].
  - destruct (String.eqb_spec (typeof v) "function") as [E|E]; simpl.
    + split.
      * split; [discriminate|].
        intros [|(v' & rest' & [= <- <-] & Hn)]; [discriminate|congruence].
      * intros fn bound [= <- <-] _. eexists. split; [reflexivity|done].
    + split.
      * split; [|done]. intros _. right. by exists v, rest.
      * intros fn bound [= <- <-] Hf. congruence.
Qed.

(** ** [times] *)

Lemma times_loop_step (count : Z) (fn : callable) (args : list value)
    (this : value) (i : Z) (results : list value) (w : world) :
  times_loop count fn args this i results w =
  if Z_lt_dec i count
  then match fn this args w with
       | (Ret r, w') => times_loop count fn args this (i + 1) (results ++ [r]) w'
       | (Throw e, w') => (Throw e, w')
       end
  else (Ret results, w).
Proof.
  rewrite times_loop_equation_1.
  destruct (Z_lt_dec i count); simpl; [|reflexivity].
  destruct (fn this args w) as [[r|e] w']; reflexivity.
Qed.

Lemma repeat_host_length (t : fn_id) (this : value) (args : list value) :
  forall n s vs e s',
    repeat_host t this args n s = (vs, e, s') ->
    match e with
    | None => length vs = n
    | Some _ => (length vs < n)%nat
    end.
Proof.
  induction n as [|n IH]; intros s vs e s' H; simpl in H.
  - by inversion H.
  - destruct (fenv t this args s) as [[v|x] s1].
    + destruct (repeat_host t this args n s1) as [[vs1 e1] s2] eqn:E.
      inversion H; subst. specialize (IH _ _ _ _ E).
      destruct e; simpl; lia.
    + inversion H; subst. simpl. lia.
Qed.

(** The loop against the reference run: from index [i], the loop makes the
    [count - i] remaining invocations one after the other and stops at the
    first that throws. *)
Lemma times_loop_host (count : Z) (t : fn_id) (bound : list value)
    (this : value) :
  forall n i results w, Z.to_nat (count - i) = n ->
    times_loop count (call (VFun t)) bound this i results w =
    let '(vs, e, s') := repeat_host t this bound n (host w) in
    (match e with
     | None => Ret (results ++ vs)
     | Some x => Throw x
     end,
     World s'
       (log w ++ repeat (Invoke t this bound)
                   (length vs + match e with Some _ => 1 | None => 0 end)%nat)
       (counters w) (clears w) (timers w) (next_timer w)).
Proof.
  induction n as [|n IH]; intros i results w Hn; rewrite times_loop_step.
  - destruct (Z_lt_dec i count); [lia|]. simpl.
    rewrite !app_nil_r. by destruct w.
  - destruct (Z_lt_dec i count); [|lia].
    rewrite call_fun. simpl.
    destruct (fenv t this bound (host w)) as [[v|x] s1]; simpl.
    + rewrite (IH (i + 1) (results ++ [v]) _ ltac:(lia)). simpl.
      destruct (repeat_host t this bound n s1) as [[vs e] s2].
      rewrite <- !app_assoc. simpl. reflexivity.
    + reflexivity.
Qed.

(** C6.  A call of the wrapped function of [times(n, t, ...bound)], for
    [n >= 0] and a target that returns each time, invokes [t] exactly [n]
    times in a row, each time with the bound arguments alone (the call's own
    arguments [callArgs] play no part), and returns the array of the [n]
    values returned, in order. *)
Theorem times_repeats (n : Z) (t : fn_id) (bound callArgs : list value)
    (this : value) (w : world) (vs : list value) (s' : S) :
  0 <= n ->
  repeat_host t (sloppy_this this) bound (Z.to_nat n) (host w) = (vs, None, s') ->
  times n (call (VFun t)) bound this callArgs w =
    (Ret (VArray vs),
     World s' (log w ++ repeat (Invoke t (sloppy_this this) bound) (Z.to_nat n))
           (counters w) (clears w) (timers w) (next_timer w)) /\
  length vs = Z.to_nat n.
Proof.
  intros Hn Hrun.
  pose proof (repeat_host_length _ _ _ _ _ _ _ _ Hrun) as Hlen. simpl in Hlen.
  split; [|exact Hlen].
  unfold times, multiplied, bind.
  rewrite (times_loop_host n t bound (sloppy_this this) (Z.to_nat n)) by (f_equal; lia).
  rewrite Hrun, Hlen, Nat.add_0_r. reflexivity.
Qed.

Lemma repeat_host_throw_at (t : fn_id) (this : value) (args : list value) :
  forall j n s vs s1 e s2,
    (j < n)%nat ->
    repeat_host t this args j s = (vs, None, s1) ->
    fenv t this args s1 = (Throw e, s2) ->
    repeat_host t this args n s = (vs, Some e, s2).
Proof.
  induction j as [|j IH]; intros n s vs s1 e s2 Hlt Hj He;
    (destruct n as [|n]; [lia|]); simpl in *.
  - inversion Hj; subst. by rewrite He.
  - destruct (fenv t this args s) as [[v|x] s0]; [|discriminate].
    destruct (repeat_host t this args j s0) as [[vs0 e0] s3] eqn:E.
    inversion Hj; subst.
    by rewrite (IH n s0 vs0 s1 e s2 ltac:(lia) E He).
Qed.

(** C7.  If the target returns on the first [k - 1] repetitions of a call
    and throws [e] on repetition [k] ([1 <= k <= count]), the call throws
    that same [e]: no array is returned, and [t] has been invoked exactly [k]
    times, so no repetition after the [k]-th took place. *)
Theorem times_propagates_throw (count : Z) (t : fn_id)
    (bound callArgs : list value) (this : value) (w : world)
    (k : nat) (vs : list value) (s1 s2 : S) (e : value) :
  (1 <= k)%nat -> (k <= Z.to_nat count)%nat ->
  repeat_host t (sloppy_this this) bound (k - 1) (host w) = (vs, None, s1) ->
  fenv t (sloppy_this this) bound s1 = (Throw e, s2) ->
  times count (call (VFun t)) bound this callArgs w =
    (Throw e,
     World s2 (log w ++ repeat (Invoke t (sloppy_this this) bound) k)
           (counters w) (clears w) (timers w) (next_timer w)).
Proof.
  intros Hk1 Hk2 Hrun He.
  pose proof (repeat_host_length _ _ _ _ _ _ _ _ Hrun) as Hlen. simpl in Hlen.
  unfold times, multiplied, bind.
  rewrite (times_loop_host count t bound (sloppy_this this) (Z.to_nat count)) by (f_equal; lia).
  rewrite (repeat_host_throw_at t (sloppy_this this) bound (k - 1) (Z.to_nat count)
             (host w) vs s1 e s2 ltac:(lia) Hrun He).
  rewrite Hlen. replace (k - 1 + 1)%nat with k by lia. reflexivity.
Qed.

(** C9 (amended).  Every invocation of the target made by a call of a
    [times]-wrapped function is made on the wrapped function's own [this] for
    that call (and with the bound arguments): the caller's receiver when that
    is an object, the global object when it is [undefined] or [null], the
    wrapper object of any other primitive.  The invocations logged by the call
    are [m] copies of [Invoke t (sloppy_this this) bound], where [m] is the
    whole count when the call returns and at least 1 when the count is
    positive. *)
Theorem times_forwards_receiver (count : Z) (t : fn_id)
    (bound callArgs : list value) (this : value) (w : world) :
  exists m : nat,
    new_events w (times count (call (VFun t)) bound this callArgs w).2
      = repeat (Invoke t (sloppy_this this) bound) m /\
    (m <= Z.to_nat count)%nat /\
    (0 < count -> (1 <= m)%nat) /\
    (forall r, (times count (call (VFun t)) bound this callArgs w).1 = Ret r ->
       m = Z.to_nat count).
Proof.
  unfold times, multiplied, bind.
  rewrite (times_loop_host count t bound (sloppy_this this) (Z.to_nat count)) by (f_equal; lia).
  destruct (repeat_host t (sloppy_this this) bound (Z.to_nat count) (host w))
    as [[vs e] s'] eqn:Hrun.
  pose proof (repeat_host_length _ _ _ _ _ _ _ _ Hrun) as Hlen.
  exists (length vs + match e with Some _ => 1 | None => 0 end)%nat.
  destruct e as [x|]; simpl.
  - split; [by apply new_events_app|]. split; [lia|]. split; [lia|]. done.
  - split; [by apply new_events_app|]. split; [lia|]. split; [lia|].
    intros _ _. lia.
Qed.

(** ** [rateLimit] *)

(** Calling any first-order value leaves the closure variables and the
    id supply alone, and can only take timers away. *)
Lemma call_timers (v this : value) (args : list value) (w : world) :
  next_timer (call v this args w).2 = next_timer w /\
  clears (call v this args w).2 = clears w /\
  forall id, timers (call v this args w).2 !! id = timers w !! id \/
             timers (call v this args w).2 !! id = None.
Proof.
  destruct v; try (repeat split; by left).
  - rewrite call_fun. repeat split; by left.
  - simpl. repeat split. intros id.
    destruct (decide (timeoutId = id)) as [->|Hne].
    + right. apply lookup_delete_eq.
    + left. by apply lookup_delete_ne.
Qed.

Lemma run_callback_timers (cb : callback) (w : world) :
  next_timer (run_callback cb w).2 = next_timer w /\
  clears (run_callback cb w).2 = clears w /\
  forall id, timers (run_callback cb w).2 !! id = timers w !! id \/
             timers (run_callback cb w).2 !! id = None.
Proof.
  destruct cb as [e fn args|g args]; simpl.
  - unfold bind. pose proof (call_timers fn (sloppy_this timer_this) args w) as H.
    destruct (call fn (sloppy_this timer_this) args w) as [[r|x] w']; exact H.
  - apply (call_timers (VFun g)).
Qed.

(** [limited] when nothing was scheduled before. *)
Lemma limited_first (env : loc) (wait : Z) (fn this : value)
    (args : list value) (w : world) :
  clears w !! env = Some VUndefined ->
  limited env wait fn this args w =
    (Ret (VClear (next_timer w)),
     World (host w) (log w) (counters w)
           (<[env := VClear (next_timer w)]> (clears w))
           (<[next_timer w := (LimitedCb env fn args, wait)]> (timers w))
           (Datatypes.S (next_timer w))).
Proof.
  intros Hc. unfold limited, bind, get_clear. rewrite Hc. reflexivity.
Qed.

(** [limited] when [clear] holds the handle of an earlier call: that
    call's timer is cleared before the new one is set. *)
Lemma limited_again (env : loc) (wait : Z) (fn this : value)
    (args : list value) (w : world) (old : timer_id) :
  clears w !! env = Some (VClear old) ->
  limited env wait fn this args w =
    (Ret (VClear (next_timer w)),
     World (host w) (log w) (counters w)
           (<[env := VClear (next_timer w)]> (clears w))
           (<[next_timer w := (LimitedCb env fn args, wait)]>
              (delete old (timers w)))
           (Datatypes.S (next_timer w))).
Proof.
  intros Hc. unfold limited, bind, get_clear. rewrite Hc. reflexivity.
Qed.

Lemma rl_inv_step (env : loc) (wait : Z) (fn : value) (a : action)
    (w w' : world) :
  rl_inv env w -> step (limited env wait fn) a w = Some w' -> rl_inv env w'.
Proof.
  intros (Hcell & Hids & Hown) Hstep.
  destruct a as [this args|id|id|g args d]; simpl in Hstep.
  - (* the wrapped function is called *)
    destruct Hcell as [Hc|[old Hc]];
      [rewrite (limited_first _ _ _ _ _ _ Hc) in Hstep
      |rewrite (limited_again _ _ _ _ _ _ _ Hc) in Hstep];
      inversion Hstep; subst; clear Hstep; (split; [|split]); simpl.
    + right. eexists. apply lookup_insert_eq.
    + intros id t Ht. destruct (decide (next_timer w = id)) as [<-|Hne]; [lia|].
      rewrite lookup_insert_ne in Ht by done. apply Hids in Ht. lia.
    + intros id t Ht Ho. destruct (decide (next_timer w = id)) as [<-|Hne].
      * apply lookup_insert_eq.
      * rewrite lookup_insert_ne in Ht by done.
        specialize (Hown id t Ht Ho). congruence.
    + right. eexists. apply lookup_insert_eq.
    + intros id t Ht. destruct (decide (next_timer w = id)) as [<-|Hne]; [lia|].
      rewrite lookup_insert_ne in Ht by done.
      apply lookup_delete_Some in Ht as [_ Ht]. apply Hids in Ht. lia.
    + intros id t Ht Ho. destruct (decide (next_timer w = id)) as [<-|Hne].
      * apply lookup_insert_eq.
      * rewrite lookup_insert_ne in Ht by done.
        apply lookup_delete_Some in Ht as [Hne' Ht].
        specialize (Hown id t Ht Ho). congruence.
  - (* a handle is called *)
    inversion Hstep; subst; clear Hstep. (split; [|split]); simpl.
    + exact Hcell.
    + intros i t Ht. apply lookup_delete_Some in Ht as [_ Ht]. eauto.
    + intros i t Ht Ho. apply lookup_delete_Some in Ht as [_ Ht]. eauto.
  - (* a timer fires *)
    unfold fire in Hstep. destruct (timers w !! id) as [[cb d]|] eqn:Hid;
      [|discriminate].
    simpl in Hstep. inversion Hstep; subst; clear Hstep.
    set (w1 := World (host w) (log w) (counters w) (clears w)
                     (delete id (timers w)) (next_timer w)).
    destruct (run_callback_timers cb w1) as (Hn & Hcl & Ht).
    assert (forall i t, timers (run_callback cb w1).2 !! i = Some t ->
                        timers w !! i = Some t) as Hsub.
    { intros i t Hi. destruct (Ht i) as [E|E]; rewrite E in Hi; [|done].
      simpl in Hi. by apply lookup_delete_Some in Hi as [_ Hi]. }
    (split; [|split]).
    + by rewrite Hcl.
    + intros i t Hi. rewrite Hn. eauto.
    + intros i t Hi Ho. rewrite Hcl. eauto.
  - (* the caller sets a timer of its own *)
    inversion Hstep; subst; clear Hstep. (split; [|split]); simpl.
    + exact Hcell.
    + intros id t Ht. destruct (decide (next_timer w = id)) as [<-|Hne]; [lia|].
      rewrite lookup_insert_ne in Ht by done. apply Hids in Ht. lia.
    + intros id t Ht Ho. destruct (decide (next_timer w = id)) as [<-|Hne].
      * rewrite lookup_insert_eq in Ht. inversion Ht; subst. discriminate.
      * rewrite lookup_insert_ne in Ht by done. eauto.
Qed.

Lemma rl_inv_run (env : loc) (wait : Z) (fn : value) :
  forall acts w w',
    rl_inv env w -> run (limited env wait fn) acts w = Some w' -> rl_inv env w'.
Proof.
  induction acts as [|a rest IH]; intros w w' Hinv Hrun; simpl in Hrun.
  - by inversion Hrun; subst.
  - destruct (step _ a w) as [w1|] eqn:Hs; [|discriminate].
    eapply IH; [|exact Hrun]. eapply rl_inv_step; eauto.
Qed.

(** An id that was handed out and is no longer pending never comes back. *)
Lemma stale_step (env : loc) (wait : Z) (fn : value) (a : action)
    (w w' : world) (id : timer_id) :
  rl_inv env w -> step (limited env wait fn) a w = Some w' ->
  (id < next_timer w)%nat -> timers w !! id = None ->
  (id < next_timer w')%nat /\ timers w' !! id = None.
Proof.
  intros (Hcell & Hids & Hown) Hstep Hlt Hnone.
  destruct a as [this args|i|i|g args d]; simpl in Hstep.
  - destruct Hcell as [Hc|[old Hc]];
      [rewrite (limited_first _ _ _ _ _ _ Hc) in Hstep
      |rewrite (limited_again _ _ _ _ _ _ _ Hc) in Hstep];
      inversion Hstep; subst; clear Hstep; simpl; (split; [lia|]);
      rewrite lookup_insert_ne by lia; [done|].
    apply lookup_delete_None. by right.
  - inversion Hstep; subst; clear Hstep. simpl. split; [done|].
    apply lookup_delete_None. by right.
  - unfold fire in Hstep. destruct (timers w !! i) as [[cb d]|] eqn:Hi;
      [|discriminate].
    simpl in Hstep. inversion Hstep; subst; clear Hstep.
    set (w1 := World (host w) (log w) (counters w) (clears w)
                     (delete i (timers w)) (next_timer w)).
    destruct (run_callback_timers cb w1) as (Hn & _ & Ht).
    rewrite Hn. split; [done|].
    destruct (Ht id) as [E|E]; rewrite E; [|done].
    simpl. apply lookup_delete_None. by right.
  - inversion Hstep; subst; clear Hstep. simpl. split; [lia|].
    by rewrite lookup_insert_ne by lia.
Qed.

Lemma stale_run (env : loc) (wait : Z) (fn : value) (id : timer_id) :
  forall acts w w',
    rl_inv env w -> run (limited env wait fn) acts w = Some w' ->
    (id < next_timer w)%nat -> timers w !! id = None ->
    timers w' !! id = None.
Proof.
  induction acts as [|a rest IH]; intros w w' Hinv Hrun Hlt Hnone;
    simpl in Hrun.
  - by inversion Hrun; subst.
  - destruct (step _ a w) as [w1|] eqn:Hs; [|discriminate].
    destruct (stale_step env wait fn a w w1 id Hinv Hs Hlt Hnone) as [Hlt1 Hn1].
    eapply IH; [|exact Hrun|exact Hlt1|exact Hn1]. eapply rl_inv_step; eauto.
Qed.

Lemma rateLimit_alloc (wait : Z) (fn : value) (w : world) :
  let env := fresh (dom (clears w)) in
  rateLimit wait fn w =
    (Ret (limited env wait fn),
     set_clears (<[env := VUndefined]> (clears w)) w) /\
  clears w !! env = None.
Proof. split; [reflexivity|]. apply not_elem_of_dom, is_fresh. Qed.

Lemma rl_inv_init (w : world) :
  wf_world w ->
  rl_inv (fresh (dom (clears w)))
         (set_clears (<[fresh (dom (clears w)) := VUndefined]> (clears w)) w).
Proof.
  intros Hwf. set (env := fresh (dom (clears w))).
  assert (clears w !! env = None) as Hfresh by apply not_elem_of_dom, is_fresh.
  split; [|split]; simpl.
  - left. apply lookup_insert_eq.
  - intros id [cb d] Ht. by destruct (Hwf id cb d Ht).
  - intros id [cb d] Ht Ho. destruct (Hwf id cb d Ht) as [_ Hcb].
    unfold owned_by in Ho. simpl in Ho. destruct cb as [e ? ?|]; [|done].
    apply bool_decide_eq_true in Ho as ->.
    rewrite Hfresh in Hcb. by destruct Hcb.
Qed.

Lemma outstanding_lookup (env : loc) (w : world) (id : timer_id)
    (t : callback * Z) :
  outstanding env w !! id = Some t <->
  timers w !! id = Some t /\ owned_by env t = true.
Proof. unfold outstanding. by rewrite map_lookup_filter_Some. Qed.

(** Under the invariant, the outstanding invocations of the instance are
    none, or the single one its [clear] names. *)
Lemma rl_inv_outstanding (env : loc) (w : world) :
  rl_inv env w -> (size (outstanding env w) <= 1)%nat.
Proof.
  intros (_ & _ & Hown).
  destruct (decide (outstanding env w = ∅)) as [E|E].
  - rewrite E, map_size_empty. lia.
  - apply map_choose in E as (i & x & Hi).
    assert (outstanding env w = {[i := x]}) as ->; [|by rewrite map_size_singleton].
    apply map_eq. intros j. destruct (decide (i = j)) as [<-|Hne].
    + by rewrite lookup_singleton_eq.
    + rewrite lookup_singleton_ne by done.
      destruct (outstanding env w !! j) as [y|] eqn:Hj; [|done].
      apply outstanding_lookup in Hi as [Hi1 Hi2].
      apply outstanding_lookup in Hj as [Hj1 Hj2].
      pose proof (Hown i x Hi1 Hi2). pose proof (Hown j y Hj1 Hj2). congruence.
Qed.

(** What a call of [limited] does to a world that satisfies the
    invariant. *)
Lemma limited_run (env : loc) (wait : Z) (fn this : value)
    (args : list value) (w : world) :
  rl_inv env w ->
  exists tm,
    limited env wait fn this args w =
      (Ret (VClear (next_timer w)),
       World (host w) (log w) (counters w)
             (<[env := VClear (next_timer w)]> (clears w))
             (<[next_timer w := (LimitedCb env fn args, wait)]> tm)
             (Datatypes.S (next_timer w))) /\
    (forall i, timers w !! i = None -> tm !! i = None) /\
    (forall i t, timers w !! i = Some t -> owned_by env t = true ->
       tm !! i = None).
Proof.
  intros (Hcell & Hids & Hown). destruct Hcell as [Hc|[old Hc]].
  - exists (timers w). split; [by apply limited_first|]. split; [done|].
    intros i t Hi Ho. specialize (Hown i t Hi Ho). congruence.
  - exists (delete old (timers w)). split; [by apply limited_again|]. split.
    + intros i Hi. apply lookup_delete_None. by right.
    + intros i t Hi Ho. specialize (Hown i t Hi Ho).
      assert (old = i) as -> by congruence. apply lookup_delete_eq.
Qed.

(** C4.  An instance created by [rateLimit(wait, t)] in a well-formed
    world starts with nothing scheduled, and after any sequence of calls of
    the wrapped function, calls of handles, timer firings and timers of the
    caller's own: at most one scheduled invocation of the instance is
    outstanding; a further call of the wrapped function returns a handle for
    a fresh timer, after which that timer, carrying the call's arguments, is
    the only outstanding one; and an invocation that was outstanding before
    that call can never fire afterwards. *)
Theorem rateLimit_single_outstanding (wait : Z) (fn : value) (w0 : world) :
  wf_world w0 ->
  exists env f w1,
    rateLimit wait fn w0 = (Ret f, w1) /\
    outstanding env w1 = ∅ /\
    forall acts w, run f acts w1 = Some w ->
      (size (outstanding env w) <= 1)%nat /\
      forall this args, exists id,
        (f this args w).1 = Ret (VClear id) /\
        timers w !! id = None /\
        outstanding env (f this args w).2
          = {[ id := (LimitedCb env fn args, wait) ]} /\
        forall old acts' w'',
          is_Some (outstanding env w !! old) ->
          run f acts' (f this args w).2 = Some w'' ->
          fire old w'' = None.
Proof.
  intros Hwf.
  destruct (rateLimit_alloc wait fn w0) as [Hr Hfresh].
  pose proof (rl_inv_init w0 Hwf) as Hinit.
  set (env := fresh (dom (clears w0))) in *.
  set (w1 := set_clears _ w0) in *.
  exists env, (limited env wait fn), w1. split; [exact Hr|]. split.
  { apply map_eq. intros i. rewrite lookup_empty.
    destruct (outstanding env w1 !! i) as [t|] eqn:Hi; [|done].
    apply outstanding_lookup in Hi as [Hi1 Hi2].
    destruct Hinit as (_ & _ & Hown). specialize (Hown i t Hi1 Hi2).
    simpl in Hown. rewrite lookup_insert_eq in Hown. discriminate. }
  intros acts w Hrun.
  pose proof (rl_inv_run env wait fn acts w1 w Hinit Hrun) as Hinv.
  split; [by apply rl_inv_outstanding|].
  intros this args. exists (next_timer w).
  destruct (limited_run env wait fn this args w Hinv) as (tm & Hl & Htm1 & Htm2).
  assert (rl_inv env (limited env wait fn this args w).2) as Hinv'.
  { apply (rl_inv_step env wait fn (CallWrapped this args) w); [done|].
    reflexivity. }
  assert (timers w !! next_timer w = None) as Hnew.
  { destruct Hinv as (_ & Hids & _).
    destruct (timers w !! next_timer w) as [t|] eqn:E; [|done].
    apply Hids in E. lia. }
  rewrite Hl in *. simpl. split; [done|]. split; [exact Hnew|]. split.
  - apply map_eq. intros j. destruct (decide (next_timer w = j)) as [<-|Hne].
    + rewrite lookup_singleton_eq. apply outstanding_lookup. simpl.
      rewrite lookup_insert_eq. split; [done|].
      unfold owned_by. simpl. by apply bool_decide_eq_true.
    + rewrite lookup_singleton_ne by done.
      destruct (outstanding env _ !! j) as [y|] eqn:Hj; [|done].
      apply outstanding_lookup in Hj as [Hj1 Hj2].
      destruct Hinv' as (_ & _ & Hown). specialize (Hown j y Hj1 Hj2).
      simpl in Hown. rewrite lookup_insert_eq in Hown. congruence.
  - intros old acts' w'' [t Hold] Hrun'.
    apply outstanding_lookup in Hold as [Ho1 Ho2].
    assert (old < next_timer w)%nat as Hlt.
    { destruct Hinv as (_ & Hids & _). eauto. }
    unfold fire.
    rewrite (stale_run env wait fn old acts' _ w'' Hinv' Hrun'); [done| |].
    + simpl. lia.
    + simpl. rewrite lookup_insert_ne by lia. eauto.
Qed.

(** * Further properties of the combinators *)

(** ** [when] never validates its target *)

(** X1.  [when] accepts a target that cannot be called, and so do calls of the
    wrapped function for as long as the predicate is falsy: they return
    [undefined].  The failure comes with the first truthy predicate, as a
    [TypeError] thrown by that call, after the predicate has run. *)
Theorem when_target_not_callable (p : fn_id) (v : value)
    (bound callArgs : list value) (this : value) (w : world)
    (r : outcome value) (s1 : S) :
  primitive v = true ->
  fenv p VUndefined [] (host w) = (r, s1) ->
  (forall c, r = Ret c -> truthy c = true ->
   when (call (VFun p)) (call v) bound this callArgs w =
   (Throw not_a_function,
    World s1 (log w ++ [Invoke p VUndefined []])
          (counters w) (clears w) (timers w) (next_timer w)))
  /\
  (forall c, r = Ret c -> truthy c = false ->
   when (call (VFun p)) (call v) bound this callArgs w =
   (Ret VUndefined,
    World s1 (log w ++ [Invoke p VUndefined []])
          (counters w) (clears w) (timers w) (next_timer w))).
Proof.
  intros Hv Hp. unfold when, bind. rewrite call_fun, Hp. cbn [fst snd].
  split; intros c -> ->; [|reflexivity].
  destruct v; try discriminate Hv; reflexivity.
Qed.

(** ** [counts]: the counter and limits that are never reached *)

(** X2.  The counter of a [counts(K, t)] instance with [K >= 0] counts the
    calls up to [K] and then stays at [K]: after [n] calls it holds
    [min n K]. *)
Theorem counts_counter_saturates (K : Z) (t : value) (bound : list value)
    (calls : list (value * list value)) (w0 : world) :
  0 <= K ->
  exists l f w1,
    counts K (call t) bound w0 = (Ret f, w1) /\
    counters w0 !! l = None /\
    counters w1 !! l = Some 0 /\
    counters (run_calls f calls w1).2 !! l
    = Some (Z.min (Z.of_nat (length calls)) K).
Proof.
  intros HK. rewrite counts_alloc.
  set (l := fresh (dom (counters w0))).
  exists l. eexists _, _. split; [reflexivity|].
  split; [apply not_elem_of_dom, is_fresh|].
  split; [apply lookup_insert_eq|].
  destruct (run_calls_inv (when (counter l K) (call t) bound)
    (fun k w => counters w !! l = Some (Z.min (Z.of_nat k) K))
    (fun _ _ _ _ _ => True))
    with (calls := calls) (k0 := 0%nat)
         (w := set_counters (<[l := 0]> (counters w0)) w0) as (Hfin & _).
  - intros k th a w Hk. split; [|done]. rewrite counted_call.
    rewrite (lookup_total_correct _ _ _ Hk).
    destruct (Z.eqb_spec (Z.min (Z.of_nat k) K) K) as [E|E].
    + rewrite call_counters, Hk. f_equal. lia.
    + simpl. rewrite lookup_insert_eq. f_equal. lia.
  - simpl. rewrite lookup_insert_eq. f_equal. lia.
  - exact Hfin.
Qed.

Lemma counts_limit_not_reached (l : loc) (K : Z) (t : value)
    (bound : list value) :
  K < 0 ->
  forall calls w c, 0 <= c -> counters w !! l = Some c ->
    (run_calls (when (counter l K) (call t) bound) calls w).1
      = repeat (Ret VUndefined, []) (length calls) /\
    log (run_calls (when (counter l K) (call t) bound) calls w).2 = log w /\
    host (run_calls (when (counter l K) (call t) bound) calls w).2 = host w.
Proof.
  intros HK calls. induction calls as [|[th a] rest IH]; intros w c Hc Hl.
  - done.
  - cbn [run_calls]. rewrite counted_call.
    rewrite (lookup_total_correct _ _ _ Hl).
    destruct (Z.eqb_spec c K) as [E|_]; [lia|].
    destruct (IH (set_counters (<[l := c + 1]> (counters w)) w) (c + 1)
                ltac:(lia) ltac:(apply lookup_insert_eq)) as (Ho & Hlg & Hh).
    destruct (run_calls _ rest _) as [obs w'']. simpl in *.
    rewrite Ho. split; [|done]. f_equal. f_equal.
    apply new_events_app. simpl. by rewrite app_nil_r.
Qed.

(** X3.  With a negative limit the count never meets it: the wrapped function
    of [counts(K, t)], [K < 0], never invokes the target, whatever [t] is
    and however often it is called. *)
Theorem counts_negative_never_fires (K : Z) (t : value) (bound : list value)
    (calls : list (value * list value)) (w0 : world) :
  K < 0 ->
  exists f w1,
    counts K (call t) bound w0 = (Ret f, w1) /\
    (run_calls f calls w1).1 = repeat (Ret VUndefined, []) (length calls) /\
    log (run_calls f calls w1).2 = log w0 /\
    host (run_calls f calls w1).2 = host w0.
Proof.
  intros HK. rewrite counts_alloc.
  set (l := fresh (dom (counters w0))).
  eexists _, _. split; [reflexivity|].
  apply (counts_limit_not_reached l K t bound HK calls
           (set_counters (<[l := 0]> (counters w0)) w0) 0); [lia|].
  apply lookup_insert_eq.
Qed.

(** ** [debounce]: any period other than 0 *)

Lemma fires_iff_divides_nonzero (N a : Z) :
  N <> 0 -> strict_eq_num (js_rem a N) 0 = true <-> (N | a).
Proof.
  intros HN. unfold js_rem, strict_eq_num.
  destruct (Z.eqb_spec N 0) as [|_]; [done|].
  rewrite Z.eqb_eq. by apply Z.rem_divide.
Qed.

(** X4.  For any period other than 0, negative ones included, the wrapped
    function of [debounce(every, t)] invokes [t] on exactly the calls whose
    1-based number [every] divides, and returns [undefined] without invoking
    anything on the others. *)
Theorem debounce_nonzero_period (every : Z) (t : fn_id) (bound : list value)
    (calls : list (value * list value)) (w0 : world) :
  every <> 0 ->
  exists f w1,
    debounce every (call (VFun t)) bound w0 = (Ret f, w1) /\
    forall k this args, calls !! k = Some (this, args) ->
      exists r evs,
        (run_calls f calls w1).1 !! k = Some (r, evs) /\
        ((every | Z.of_nat k + 1) -> evs = [Invoke t (sloppy_this this) (bound ++ args)]) /\
        (~ (every | Z.of_nat k + 1) -> r = Ret VUndefined /\ evs = []).
Proof.
  intros HN.
  destruct (debounce_alloc every (call (VFun t)) bound w0) as [Hd _].
  set (l := fresh (dom (counters w0))) in *.
  eexists _, _. split; [exact Hd|].
  destruct (run_calls_inv (when (debouncer l every) (call (VFun t)) bound)
    (fun k w => counters w !! l = Some (Z.of_nat k))
    (fun k this args r evs =>
       ((every | Z.of_nat k + 1) -> evs = [Invoke t (sloppy_this this) (bound ++ args)]) /\
       (~ (every | Z.of_nat k + 1) -> r = Ret VUndefined /\ evs = [])))
    with (calls := calls) (k0 := 0%nat)
         (w := set_counters (<[l := 0]> (counters w0)) w0) as (_ & _ & Hobs).
  - intros k th a w Hk. split.
    + rewrite (debounced_call_counter l every (VFun t) bound th a w _ Hk).
      f_equal. lia.
    + rewrite debounced_call, (lookup_total_correct _ _ _ Hk).
      destruct (strict_eq_num (js_rem (Z.of_nat k + 1) every) 0) eqn:E.
      * split; [|intros Hn; exfalso; apply Hn;
                 by apply fires_iff_divides_nonzero in E].
        intros _. rewrite call_fun. by apply new_events_app.
      * split.
        { intros Hd'. apply fires_iff_divides_nonzero in Hd'; [|done].
          congruence. }
        intros _. split; [done|]. apply new_events_app. simpl.
        by rewrite app_nil_r.
  - apply lookup_insert_eq.
  - exact Hobs.
Qed.

(** ** [debounce]: instances do not share their counters *)

(** X5.  Two instances created one after the other count in different cells,
    and a call of either wrapped function leaves the other's counter as it
    was. *)
Theorem debounce_instances_independent (e1 e2 : Z) (t1 t2 : value)
    (b1 b2 : list value) (w0 : world) :
  exists l1 l2 w1 w2,
    debounce e1 (call t1) b1 w0
      = (Ret (when (debouncer l1 e1) (call t1) b1), w1) /\
    debounce e2 (call t2) b2 w1
      = (Ret (when (debouncer l2 e2) (call t2) b2), w2) /\
    l1 <> l2 /\
    counters w2 !! l1 = Some 0 /\ counters w2 !! l2 = Some 0 /\
    (forall this args w,
       counters (when (debouncer l2 e2) (call t2) b2 this args w).2 !! l1
       = counters w !! l1) /\
    (forall this args w,
       counters (when (debouncer l1 e1) (call t1) b1 this args w).2 !! l2
       = counters w !! l2).
Proof.
  destruct (debounce_alloc e1 (call t1) b1 w0) as [H1 _].
  set (l1 := fresh (dom (counters w0))) in *.
  set (w1 := set_counters (<[l1 := 0]> (counters w0)) w0) in *.
  destruct (debounce_alloc e2 (call t2) b2 w1) as [H2 Hf2].
  set (l2 := fresh (dom (counters w1))) in *.
  assert (l1 <> l2) as Hne.
  { intros E. rewrite <- E in Hf2. simpl in Hf2.
    by rewrite lookup_insert_eq in Hf2. }
  exists l1, l2, w1. eexists. split; [exact H1|]. split; [exact H2|].
  split; [exact Hne|].
  assert (forall l l' e (t : value) b this args w, l <> l' ->
    counters (when (debouncer l e) (call t) b this args w).2 !! l'
    = counters w !! l') as Hframe.
  { intros l l' e t b this args w Hll. rewrite debounced_call.
    destruct (strict_eq_num _ 0); [rewrite call_counters|]; simpl;
      by rewrite lookup_insert_ne. }
  split; [simpl; rewrite lookup_insert_ne by done; apply lookup_insert_eq|].
  split; [apply lookup_insert_eq|].
  split; intros this args w; apply Hframe; done.
Qed.

(** ** [times]: counts that are not positive, and splitting a count *)

(** X6.  With a count of 0 or less the loop body never runs: the call returns
    an empty array, invokes nothing and changes nothing, whatever the target
    is. *)
Theorem times_nonpositive_count (count : Z) (fn : callable)
    (bound callArgs : list value) (this : value) (w : world) :
  count <= 0 ->
  times count fn bound this callArgs w = (Ret (VArray []), w).
Proof.
  intros Hc. unfold times, multiplied, bind. rewrite times_loop_step.
  destruct (Z_lt_dec 0 count); [lia|reflexivity].
Qed.




(** ** [rateLimit]: handles *)

(** A handle whose timer is not pending does nothing. *)
Lemma handle_not_pending (id : timer_id) (this : value) (args : list value)
    (w : world) :
  timers w !! id = None ->
  call (VClear id) this args w = (Ret VUndefined, w).
Proof.
  intros Hn. unfold call, bind, clearTimeout, ret. simpl.
  rewrite (delete_id _ _ Hn). by destruct w.
Qed.

(** X8.  Calling a handle a second time has no effect and raises nothing:
    the world after the second call is the world after the first. *)
Theorem handle_idempotent (id : timer_id) (this this' : value)
    (args args' : list value) (w : world) :
  call (VClear id) this' args' (call (VClear id) this args w).2
  = (Ret VUndefined, (call (VClear id) this args w).2).
Proof. apply handle_not_pending. simpl. apply lookup_delete_eq. Qed.



(** ** [rateLimit]: what the steps do to the timer table *)

(** A step hands out ids upwards and never rewrites an entry that was
    handed out before: it keeps it or drops it. *)
Lemma pending_step (env : loc) (wait : Z) (fn : value) (a : action)
    (w w' : world) :
  rl_inv env w -> step (limited env wait fn) a w = Some w' ->
  (next_timer w <= next_timer w')%nat /\
  forall id : timer_id, (id < next_timer w)%nat ->
    timers w' !! id = timers w !! id \/ timers w' !! id = None.
Proof.
  intros Hinv Hstep.
  destruct a as [this args|i|i|g args d]; simpl in Hstep.
  - destruct (limited_run env wait fn this args w Hinv) as (tm & Hl & _ & _).
    pose proof Hinv as (Hcell & _ & _).
    destruct Hcell as [Hc|[old Hc]];
      [rewrite (limited_first _ _ _ _ _ _ Hc) in Hstep
      |rewrite (limited_again _ _ _ _ _ _ _ Hc) in Hstep];
      inversion Hstep; subst; clear Hstep; simpl; (split; [lia|]);
      intros id Hid; rewrite lookup_insert_ne by lia; [by left|].
    destruct (decide (old = id)) as [->|Hne].
    + right. apply lookup_delete_eq.
    + left. by apply lookup_delete_ne.
  - inversion Hstep; subst; clear Hstep. simpl. split; [done|]. intros id _.
    destruct (decide (i = id)) as [->|Hne].
    + right. apply lookup_delete_eq.
    + left. by apply lookup_delete_ne.
  - unfold fire in Hstep. destruct (timers w !! i) as [[cb d]|] eqn:Hi;
      [|discriminate].
    simpl in Hstep. inversion Hstep; subst; clear Hstep.
    set (w1 := World (host w) (log w) (counters w) (clears w)
                     (delete i (timers w)) (next_timer w)).
    destruct (run_callback_timers cb w1) as (Hn & _ & Ht).
    rewrite Hn. split; [done|]. intros id _.
    destruct (Ht id) as [E|E]; rewrite E; [|by right]. simpl.
    destruct (decide (i = id)) as [->|Hne].
    + right. apply lookup_delete_eq.
    + left. by apply lookup_delete_ne.
  - inversion Hstep; subst; clear Hstep. simpl. split; [lia|]. intros id Hid.
    left. by rewrite lookup_insert_ne by lia.
Qed.

Lemma pending_run (env : loc) (wait : Z) (fn : value) :
  forall acts w w',
    rl_inv env w -> run (limited env wait fn) acts w = Some w' ->
    (next_timer w <= next_timer w')%nat /\
    forall id : timer_id, (id < next_timer w)%nat ->
      timers w' !! id = timers w !! id \/ timers w' !! id = None.
Proof.
  induction acts as [|a rest IH]; intros w w' Hinv Hrun; simpl in Hrun.
  - inversion Hrun; subst. split; [done|]. by left.
  - destruct (step _ a w) as [w1|] eqn:Hs; [|discriminate].
    destruct (pending_step env wait fn a w w1 Hinv Hs) as [Hn1 Ht1].
    destruct (IH w1 w' (rl_inv_step env wait fn a w w1 Hinv Hs) Hrun)
      as [Hn2 Ht2].
    split; [lia|]. intros id Hid.
    destruct (Ht2 id ltac:(lia)) as [E|E]; rewrite E; [|by right].
    apply Ht1, Hid.
Qed.


Lemma outstanding_empty (env : loc) (w : world) :
  (forall i t, timers w !! i = Some t -> owned_by env t = true -> False) ->
  outstanding env w = ∅.
Proof.
  intros H. apply map_eq. intros i. rewrite lookup_empty.
  destruct (outstanding env w !! i) as [t|] eqn:Hi; [|done].
  apply outstanding_lookup in Hi as [Hi1 Hi2]. destruct (H i t Hi1 Hi2).
Qed.

(** ** [rateLimit]: firing, cancelling, stale handles *)

(** After a call of [limited] in a world that satisfies the invariant,
    the timer the call set is the one scheduled invocation of the instance. *)
Lemma limited_outstanding (env : loc) (wait : Z) (fn this : value)
    (args : list value) (w : world) :
  rl_inv env w ->
  (limited env wait fn this args w).1 = Ret (VClear (next_timer w)) /\
  outstanding env (limited env wait fn this args w).2
  = {[ next_timer w := (LimitedCb env fn args, wait) ]}.
Proof.
  intros Hinv.
  destruct (limited_run env wait fn this args w Hinv) as (tm & Hl & _ & _).
  assert (rl_inv env (limited env wait fn this args w).2) as Hinv'.
  { by apply (rl_inv_step env wait fn (CallWrapped this args) w). }
  rewrite Hl in *. cbn [fst snd] in *. split; [done|].
  apply map_eq. intros j. destruct (decide (next_timer w = j)) as [<-|Hne].
  - rewrite lookup_singleton_eq. apply outstanding_lookup. simpl.
    rewrite lookup_insert_eq. split; [done|].
    unfold owned_by. simpl. by apply bool_decide_eq_true.
  - rewrite lookup_singleton_ne by done.
    destruct (outstanding env _ !! j) as [y|] eqn:Hj; [|done].
    apply outstanding_lookup in Hj as [Hj1 Hj2].
    destruct Hinv' as (_ & _ & Hown). specialize (Hown j y Hj1 Hj2).
    simpl in Hown. rewrite lookup_insert_eq in Hown. congruence.
Qed.


(** X11.  Calling the handle a call returned, before its timer fires,
    cancels that call: the invocation the call had scheduled, until then the
    only one of the instance, is gone and nothing of the instance stays
    scheduled; the target has not been invoked; and the cancelled timer can
    never fire. *)
Theorem rateLimit_cancel (wait : Z) (fn : value) (w0 : world) :
  wf_world w0 ->
  exists env f w1,
    rateLimit wait fn w0 = (Ret f, w1) /\
    forall acts w, run f acts w1 = Some w ->
      forall this args, exists id wc,
        (f this args w).1 = Ret (VClear id) /\
        outstanding env (f this args w).2
          = {[ id := (LimitedCb env fn args, wait) ]} /\
        call (VClear id) VUndefined [] (f this args w).2 = (Ret VUndefined, wc) /\
        outstanding env wc = ∅ /\
        log wc = log w /\
        forall acts' w'', run f acts' wc = Some w'' -> fire id w'' = None.
Proof.
  intros Hwf.
  destruct (rateLimit_alloc wait fn w0) as [Hr _].
  pose proof (rl_inv_init w0 Hwf) as Hinit.
  set (env := fresh (dom (clears w0))) in *.
  set (w1 := set_clears _ w0) in *.
  exists env, (limited env wait fn), w1. split; [exact Hr|].
  intros acts w Hrun this args.
  pose proof (rl_inv_run env wait fn acts w1 w Hinit Hrun) as Hinv.
  destruct (limited_outstanding env wait fn this args w Hinv) as [_ Hone].
  destruct (limited_run env wait fn this args w Hinv) as (tm & Hl & _ & _).
  assert (rl_inv env (limited env wait fn this args w).2) as Hinv'.
  { by apply (rl_inv_step env wait fn (CallWrapped this args) w). }
  rewrite Hl in *. cbn [fst snd] in *.
  set (w' := World (host w) (log w) (counters w)
               (<[env := VClear (next_timer w)]> (clears w))
               (<[next_timer w := (LimitedCb env fn args, wait)]> tm)
               (Datatypes.S (next_timer w))) in *.
  assert (rl_inv env (call (VClear (next_timer w)) VUndefined [] w').2) as Hinvc.
  { by apply (rl_inv_step env wait fn (CallHandle (next_timer w)) w'). }
  eexists (next_timer w), _.
  split; [reflexivity|]. split; [exact Hone|]. split; [reflexivity|].
  split; [|split; [reflexivity|]].
  - apply outstanding_empty. intros j tj Hj Ho.
    destruct Hinvc as (_ & _ & Hown). specialize (Hown j tj Hj Ho).
    simpl in Hown, Hj. rewrite lookup_insert_eq in Hown. injection Hown as <-.
    by rewrite lookup_delete_eq in Hj.
  - intros acts' w'' Hrun'. unfold fire.
    rewrite (stale_run env wait fn (next_timer w) acts' _ w'' Hinvc Hrun');
      [done|simpl; lia|simpl; apply lookup_delete_eq].
Qed.

(** X12.  A handle from an earlier call is harmless once the wrapped function
    has been called again: the two handles differ, and calling the earlier
    one changes nothing, so the later call's invocation stays scheduled. *)
Theorem rateLimit_stale_handle_harmless (wait : Z) (fn : value) (w0 : world) :
  wf_world w0 ->
  exists env f w1,
    rateLimit wait fn w0 = (Ret f, w1) /\
    forall acts w, run f acts w1 = Some w ->
      forall this1 args1 acts' w2,
        run f acts' (f this1 args1 w).2 = Some w2 ->
        forall this2 args2, exists id1 id2,
          (f this1 args1 w).1 = Ret (VClear id1) /\
          (f this2 args2 w2).1 = Ret (VClear id2) /\
          id1 <> id2 /\
          call (VClear id1) VUndefined [] (f this2 args2 w2).2
          = (Ret VUndefined, (f this2 args2 w2).2) /\
          outstanding env (f this2 args2 w2).2
          = {[ id2 := (LimitedCb env fn args2, wait) ]}.
Proof.
  intros Hwf.
  destruct (rateLimit_alloc wait fn w0) as [Hr _].
  pose proof (rl_inv_init w0 Hwf) as Hinit.
  set (env := fresh (dom (clears w0))) in *.
  set (w1 := set_clears _ w0) in *.
  exists env, (limited env wait fn), w1. split; [exact Hr|].
  intros acts w Hrun this1 args1 acts' w2 Hrun' this2 args2.
  pose proof (rl_inv_run env wait fn acts w1 w Hinit Hrun) as Hinv.
  destruct (limited_run env wait fn this1 args1 w Hinv) as (tm & Hl & _ & _).
  assert (rl_inv env (limited env wait fn this1 args1 w).2) as Hinv'.
  { by apply (rl_inv_step env wait fn (CallWrapped this1 args1) w). }
  rewrite Hl in *. cbn [fst snd] in *.
  set (w' := World (host w) (log w) (counters w)
               (<[env := VClear (next_timer w)]> (clears w))
               (<[next_timer w := (LimitedCb env fn args1, wait)]> tm)
               (Datatypes.S (next_timer w))) in *.
  pose proof (rl_inv_run env wait fn acts' w' w2 Hinv' Hrun') as Hinv2.
  destruct (pending_run env wait fn acts' w' w2 Hinv' Hrun') as [Hnext Hkeep].
  destruct (limited_run env wait fn this2 args2 w2 Hinv2)
    as (tm2 & Hl2 & Htm1 & Htm2).
  assert (rl_inv env (limited env wait fn this2 args2 w2).2) as Hinv3.
  { by apply (rl_inv_step env wait fn (CallWrapped this2 args2) w2). }
  rewrite Hl2 in *. cbn [fst snd] in *. simpl in Hnext.
  exists (next_timer w), (next_timer w2).
  split; [reflexivity|]. split; [reflexivity|]. split; [lia|]. split.
  - apply handle_not_pending. simpl. rewrite lookup_insert_ne by lia.
    destruct (Hkeep (next_timer w) ltac:(simpl; lia)) as [E|E].
    + simpl in E. rewrite lookup_insert_eq in E.
      apply (Htm2 _ _ E). unfold owned_by. simpl. by apply bool_decide_eq_true.
    + by apply Htm1.
  - apply map_eq. intros j. destruct (decide (next_timer w2 = j)) as [<-|Hne].
    + rewrite lookup_singleton_eq. apply outstanding_lookup. simpl.
      rewrite lookup_insert_eq. split; [done|].
      unfold owned_by. simpl. by apply bool_decide_eq_true.
    + rewrite lookup_singleton_ne by done.
      destruct (outstanding env _ !! j) as [y|] eqn:Hj; [|done].
      apply outstanding_lookup in Hj as [Hj1 Hj2].
      destruct Hinv3 as (_ & _ & Hown). specialize (Hown j y Hj1 Hj2).
      simpl in Hown. rewrite lookup_insert_eq in Hown. congruence.
Qed.

(** What every call of the wrapped function does in a world reached from
    the factory: the world it leaves, and the one invocation scheduled. *)
Lemma limited_schedules_one (wait : Z) (fn : value) (w0 : world) :
  wf_world w0 ->
  exists env,
    rateLimit wait fn w0
      = (Ret (limited env wait fn),
         set_clears (<[env := VUndefined]> (clears w0)) w0) /\
    forall acts w,
      run (limited env wait fn) acts
          (set_clears (<[env := VUndefined]> (clears w0)) w0) = Some w ->
      forall this args, exists tm,
        limited env wait fn this args w =
          (Ret (VClear (next_timer w)),
           World (host w) (log w) (counters w)
                 (<[env := VClear (next_timer w)]> (clears w))
                 (<[next_timer w := (LimitedCb env fn args, wait)]> tm)
                 (Datatypes.S (next_timer w))) /\
        outstanding env
          (World (host w) (log w) (counters w)
                 (<[env := VClear (next_timer w)]> (clears w))
                 (<[next_timer w := (LimitedCb env fn args, wait)]> tm)
                 (Datatypes.S (next_timer w)))
        = {[ next_timer w := (LimitedCb env fn args, wait) ]}.
Proof.
  intros Hwf.
  destruct (rateLimit_alloc wait fn w0) as [Hr _].
  pose proof (rl_inv_init w0 Hwf) as Hinit.
  set (env := fresh (dom (clears w0))) in *.
  exists env. split; [exact Hr|].
  intros acts w Hrun this args.
  pose proof (rl_inv_run env wait fn acts _ w Hinit Hrun) as Hinv.
  destruct (limited_run env wait fn this args w Hinv) as (tm & Hl & _ & _).
  assert (rl_inv env (limited env wait fn this args w).2) as Hinv'.
  { by apply (rl_inv_step env wait fn (CallWrapped this args) w). }
  exists tm. split; [exact Hl|]. rewrite Hl in Hinv'. cbn [snd] in Hinv'.
  apply map_eq. intros j. destruct (decide (next_timer w = j)) as [<-|Hne].
  - rewrite lookup_singleton_eq. apply outstanding_lookup. simpl.
    rewrite lookup_insert_eq. split; [done|].
    unfold owned_by. simpl. by apply bool_decide_eq_true.
  - rewrite lookup_singleton_ne by done.
    destruct (outstanding env _ !! j) as [y|] eqn:Hj; [|done].
    apply outstanding_lookup in Hj as [Hj1 Hj2].
    destruct Hinv' as (_ & _ & Hown). specialize (Hown j y Hj1 Hj2).
    simpl in Hown. rewrite lookup_insert_eq in Hown. congruence.
Qed.

(** X13.  [rateLimit] accepts a target that cannot be called, and so does the
    wrapped function: it sets its timer and returns a handle as usual.  The
    failure comes when the timer fires, as a [TypeError] thrown inside the
    callback, with nothing invoked. *)
Theorem rateLimit_target_not_validated (wait : Z) (v : value) (w0 : world) :
  primitive v = true ->
  wf_world w0 ->
  exists env f w1,
    rateLimit wait v w0 = (Ret f, w1) /\
    forall acts w, run f acts w1 = Some w ->
      forall this args, exists id w'',
        (f this args w).1 = Ret (VClear id) /\
        outstanding env (f this args w).2
          = {[ id := (LimitedCb env v args, wait) ]} /\
        fire id (f this args w).2 = Some (Throw not_a_function, w'') /\
        log w'' = log w /\ host w'' = host w.
Proof.
  intros Hv Hwf.
  destruct (limited_schedules_one wait v w0 Hwf)
    as (env & Hr & Hall).
  exists env, (limited env wait v). eexists. split; [exact Hr|].
  intros acts w Hrun this args.
  destruct (Hall acts w Hrun this args) as (tm & Hl & Hout).
  rewrite Hl. cbn [fst snd].
  eexists (next_timer w), _. split; [reflexivity|]. split; [exact Hout|].
  split.
  - unfold fire. cbn [timers]. rewrite lookup_insert_eq.
    unfold run_callback, bind.
    destruct v; try discriminate Hv; reflexivity.
  - by destruct v.
Qed.

(** ** [rateLimit]: no more firings than calls *)



(** ** [rateLimit]: timers that are not its own *)

Lemma clear_owned_step (env : loc) (wait : Z) (fn : value) (a : action)
    (w w' : world) :
  rl_inv env w -> clear_owned env w ->
  step (limited env wait fn) a w = Some w' -> clear_owned env w'.
Proof.
  intros Hinv Hco Hstep.
  destruct (pending_step env wait fn a w w' Hinv Hstep) as [Hnext Hkeep].
  destruct a as [this args|i|i|g args d].
  - simpl in Hstep.
    destruct (limited_run env wait fn this args w Hinv) as (tm & Hl & _ & _).
    rewrite Hl in Hstep. inversion Hstep; subst; clear Hstep.
    intros old Hold. simpl in Hold. rewrite lookup_insert_eq in Hold.
    injection Hold as <-. simpl. split; [lia|].
    intros t Ht. rewrite lookup_insert_eq in Ht. injection Ht as <-.
    unfold owned_by. simpl. by apply bool_decide_eq_true.
  - assert (clears w' = clears w) as Hcl
      by (simpl in Hstep; by inversion Hstep).
    intros old Hold. rewrite Hcl in Hold. destruct (Hco old Hold) as [Hlt Hot].
    split; [lia|]. intros t Ht.
    destruct (Hkeep old Hlt) as [E|E]; rewrite E in Ht; [eauto|done].
  - assert (clears w' = clears w) as Hcl.
    { simpl in Hstep. unfold fire in Hstep.
      destruct (timers w !! i) as [[cb d]|]; [|discriminate].
      simpl in Hstep. inversion Hstep; subst.
      by destruct (run_callback_timers cb
           (World (host w) (log w) (counters w) (clears w)
                  (delete i (timers w)) (next_timer w))) as (_ & Hc & _). }
    intros old Hold. rewrite Hcl in Hold. destruct (Hco old Hold) as [Hlt Hot].
    split; [lia|]. intros t Ht.
    destruct (Hkeep old Hlt) as [E|E]; rewrite E in Ht; [eauto|done].
  - assert (clears w' = clears w) as Hcl
      by (simpl in Hstep; by inversion Hstep).
    intros old Hold. rewrite Hcl in Hold. destruct (Hco old Hold) as [Hlt Hot].
    split; [lia|]. intros t Ht.
    destruct (Hkeep old Hlt) as [E|E]; rewrite E in Ht; [eauto|done].
Qed.

Lemma clear_owned_run (env : loc) (wait : Z) (fn : value) :
  forall acts w w',
    rl_inv env w -> clear_owned env w ->
    run (limited env wait fn) acts w = Some w' -> clear_owned env w'.
Proof.
  induction acts as [|a rest IH]; intros w w' Hinv Hco Hrun; simpl in Hrun.
  - by inversion Hrun; subst.
  - destruct (step _ a w) as [w1|] eqn:Hs; [|discriminate].
    apply (IH w1 w'); [|by apply (clear_owned_step env wait fn a w)|done].
    by apply (rl_inv_step env wait fn a w).
Qed.

(** X15.  A call of the wrapped function cancels nothing but the instance's own
    earlier invocation: every pending timer that is not a scheduled
    invocation of the instance (a timer of the caller, or of another
    instance) is still pending, unchanged, after the call. *)
Theorem rateLimit_keeps_foreign_timers (wait : Z) (fn : value) (w0 : world) :
  wf_world w0 ->
  exists env f w1,
    rateLimit wait fn w0 = (Ret f, w1) /\
    forall acts w, run f acts w1 = Some w ->
      forall this args (id : timer_id) t,
        timers w !! id = Some t -> owned_by env t = false ->
        timers (f this args w).2 !! id = Some t.
Proof.
  intros Hwf.
  destruct (rateLimit_alloc wait fn w0) as [Hr _].
  pose proof (rl_inv_init w0 Hwf) as Hinit.
  set (env := fresh (dom (clears w0))) in *.
  set (w1 := set_clears _ w0) in *.
  exists env, (limited env wait fn), w1. split; [exact Hr|].
  intros acts w Hrun this args id t Hid Hno.
  pose proof (rl_inv_run env wait fn acts w1 w Hinit Hrun) as Hinv.
  assert (clear_owned env w1) as Hco1.
  { intros old Hold. simpl in Hold. rewrite lookup_insert_eq in Hold.
    discriminate. }
  pose proof (clear_owned_run env wait fn acts w1 w Hinit Hco1 Hrun) as Hco.
  pose proof Hinv as (Hcell & Hids & _).
  pose proof (Hids id t Hid) as Hlt.
  destruct Hcell as [Hc|[old Hc]].
  - rewrite (limited_first _ _ _ _ _ _ Hc). simpl.
    by rewrite lookup_insert_ne by lia.
  - rewrite (limited_again _ _ _ _ _ _ _ Hc). simpl.
    rewrite lookup_insert_ne by lia.
    apply lookup_delete_Some. split; [|done].
    intros ->. destruct (Hco id Hc) as [_ Hot].
    rewrite (Hot t Hid) in Hno. discriminate.
Qed.

End Fn.

(** * The properties on the sample caller *)

Local Abbreviation w_start := (World 0 [] ∅ ∅ ∅ 0%nat).
Local Abbreviation three_calls :=
  [(VObj 1, [VStr "World!"]); (VObj 2, [VStr "Everyone"]); (VObj 3, [VStr "World!"])].
Local Abbreviation four_calls :=
  [(VObj 1, [VStr "Hi"]); (VObj 2, []); (VObj 3, [VNum 3]); (VObj 4, [VStr "Hi"])].

(** [counts(2, f0, 'Hello')] called three times, as in the example of the
    source's documentation: silent twice, then the target runs. *)
Example counts_two_three_calls :
  match counts 2 (call demo_fenv (VFun 0%nat)) [VStr "Hello"] w_start with
  | (Ret f, w1) =>
      (run_calls f three_calls w1).1 =
      [(Ret VUndefined, []); (Ret VUndefined, []);
       (Ret (VNum 0), [Invoke 0%nat (VObj 3) [VStr "Hello"; VStr "World!"]])]
  | _ => False
  end.
Proof. vm_compute. reflexivity. Qed.

Lemma counts_fires_only_after_limit_witness :
  0 <= 2 /\
  exists f w1,
    counts 2 (call demo_fenv (VFun 0%nat)) [VStr "Hello"] w_start = (Ret f, w1) /\
    length (run_calls f three_calls w1).1 = length three_calls /\
    forall k this args, three_calls !! k = Some (this, args) ->
      exists r evs,
        (run_calls f three_calls w1).1 !! k = Some (r, evs) /\
        (Z.of_nat k < 2 -> r = Ret VUndefined /\ evs = []) /\
        (2 <= Z.of_nat k -> evs = [Invoke 0%nat (sloppy_this this) ([VStr "Hello"] ++ args)]).
Proof.
  split; [lia|].
  apply (counts_fires_only_after_limit demo_fenv 2 0%nat). lia.
Defined.

Lemma when_dispatch_witness :
  when (call demo_fenv (VFun 1%nat)) (call demo_fenv (VFun 0%nat))
       [VStr "Hello World"] (VObj 7) [VStr "boom"] w_start
  = (Ret (VNum 1),
     World 2 [Invoke 1%nat VUndefined [];
              Invoke 0%nat (VObj 7) [VStr "Hello World"; VStr "boom"]]
           ∅ ∅ ∅ 0%nat)
  /\
  when (call demo_fenv (VFun 1%nat)) (call demo_fenv (VFun 0%nat))
       [VStr "Hello World"] (VObj 7) [VStr "bam"] (World 1 [] ∅ ∅ ∅ 0%nat)
  = (Ret VUndefined, World 2 [Invoke 1%nat VUndefined []] ∅ ∅ ∅ 0%nat)
  /\
  when (call demo_fenv (VFun 2%nat)) (call demo_fenv (VFun 0%nat))
       [VStr "Hello World"] (VObj 7) [] (World 2 [] ∅ ∅ ∅ 0%nat)
  = (Throw (VStr "boom"), World 3 [Invoke 2%nat VUndefined []] ∅ ∅ ∅ 0%nat).
Proof.
  split; [|split].
  - exact (proj1 (when_dispatch demo_fenv 1%nat 0%nat [VStr "Hello World"]
                    [VStr "boom"] (VObj 7) w_start (Ret (VBool true)) 1 eq_refl)
                 (VBool true) eq_refl eq_refl).
  - exact (proj1 (proj2 (when_dispatch demo_fenv 1%nat 0%nat
                    [VStr "Hello World"] [VStr "bam"] (VObj 7)
                    (World 1 [] ∅ ∅ ∅ 0%nat) (Ret (VBool false)) 2 eq_refl))
                 (VBool false) eq_refl eq_refl).
  - exact (proj2 (proj2 (when_dispatch demo_fenv 2%nat 0%nat
                    [VStr "Hello World"] [] (VObj 7)
                    (World 2 [] ∅ ∅ ∅ 0%nat) (Throw (VStr "boom")) 3 eq_refl))
                 (VStr "boom") eq_refl).
Defined.

Lemma debounce_fires_every_nth_witness :
  0 < 2 /\
  exists f w1,
    debounce 2 (call demo_fenv (VFun 0%nat)) [VStr "Log!"] w_start = (Ret f, w1) /\
    length (run_calls f four_calls w1).1 = length four_calls /\
    (forall k this args, four_calls !! k = Some (this, args) ->
       exists r evs,
         (run_calls f four_calls w1).1 !! k = Some (r, evs) /\
         ((2 | Z.of_nat k + 1) -> evs = [Invoke 0%nat (sloppy_this this) ([VStr "Log!"] ++ args)]) /\
         (~ (2 | Z.of_nat k + 1) -> evs = [])) /\
    Z.of_nat (length (invocations (run_calls f four_calls w1).1))
    = Z.of_nat (length four_calls) / 2.
Proof.
  split; [lia|].
  apply (debounce_fires_every_nth demo_fenv 2 0%nat). lia.
Defined.

(** [debounce(2, f0, 'Log!')] called four times fires on calls 2 and 4. *)
Example debounce_two_four_calls :
  match debounce 2 (call demo_fenv (VFun 0%nat)) [VStr "Log!"] w_start with
  | (Ret f, w1) =>
      map snd (run_calls f four_calls w1).1 =
      [[]; [Invoke 0%nat (VObj 2) [VStr "Log!"]];
       []; [Invoke 0%nat (VObj 4) [VStr "Log!"; VStr "Hi"]]]
  | _ => False
  end.
Proof. vm_compute. reflexivity. Qed.

(** [arglock()] and [arglock(42)] throw; [arglock(f0, 'Test')] does not. *)
Example arglock_examples :
  (arglock demo_fenv [] w_start).1 = Throw arglock_error /\
  (arglock demo_fenv [VNum 42] w_start).1 = Throw arglock_error /\
  match arglock demo_fenv [VFun 0%nat; VStr "Test"] w_start with
  | (Ret f, _) =>
      f (VObj 1) [VStr "1"] w_start =
      (Ret (VNum 0),
       World 1 [Invoke 0%nat (VObj 1) [VStr "Test"; VStr "1"]] ∅ ∅ ∅ 0%nat)
  | _ => False
  end.
Proof. repeat split. Qed.

Lemma times_repeats_witness :
  0 <= 3 /\
  repeat_host demo_fenv 0%nat (VObj 1) [VStr "x"] (Z.to_nat 3) 0
    = ([VNum 0; VNum 1; VNum 2], None, 3) /\
  times 3 (call demo_fenv (VFun 0%nat)) [VStr "x"] (VObj 1) [VNum 9] w_start
    = (Ret (VArray [VNum 0; VNum 1; VNum 2]),
       World 3 (repeat (Invoke 0%nat (VObj 1) [VStr "x"]) 3) ∅ ∅ ∅ 0%nat) /\
  length [VNum 0; VNum 1; VNum 2] = Z.to_nat 3.
Proof.
  split; [lia|]. split; [reflexivity|].
  exact (times_repeats demo_fenv 3 0%nat [VStr "x"] [VNum 9] (VObj 1) w_start
           [VNum 0; VNum 1; VNum 2] 3 ltac:(lia) eq_refl).
Defined.

Lemma times_propagates_throw_witness :
  (1 <= 3)%nat /\ (3 <= Z.to_nat 5)%nat /\
  repeat_host demo_fenv 2%nat (VObj 1) [VStr "x"] (3 - 1) 0
    = ([VNum 0; VNum 1], None, 2) /\
  demo_fenv 2%nat (VObj 1) [VStr "x"] 2 = (Throw (VStr "boom"), 3) /\
  times 5 (call demo_fenv (VFun 2%nat)) [VStr "x"] (VObj 1) [] w_start
    = (Throw (VStr "boom"),
       World 3 (repeat (Invoke 2%nat (VObj 1) [VStr "x"]) 3) ∅ ∅ ∅ 0%nat).
Proof.
  split; [lia|]. split; [simpl; lia|]. split; [reflexivity|].
  split; [reflexivity|].
  exact (times_propagates_throw demo_fenv 5 2%nat [VStr "x"] [] (VObj 1) w_start
           3%nat [VNum 0; VNum 1] 2 3 (VStr "boom")
           ltac:(lia) ltac:(simpl; lia) eq_refl eq_refl).
Defined.

(** A world in which the caller already has a timer of its own pending. *)
Local Abbreviation w_busy :=
  (World 0 [] ∅ ∅ {[ 0%nat := (HostCb 3%nat [], 50) ]} 1%nat).

Lemma rateLimit_single_outstanding_witness :
  wf_world w_busy /\
  exists env f w1,
    rateLimit demo_fenv 100 (VFun 0%nat) w_busy = (Ret f, w1) /\
    outstanding env w1 = ∅ /\
    forall acts w, run demo_fenv VUndefined f acts w1 = Some w ->
      (size (outstanding env w) <= 1)%nat /\
      forall this args, exists id,
        (f this args w).1 = Ret (VClear id) /\
        timers w !! id = None /\
        outstanding env (f this args w).2
          = {[ id := (LimitedCb env (VFun 0%nat) args, 100) ]} /\
        forall old acts' w'',
          is_Some (outstanding env w !! old) ->
          run demo_fenv VUndefined f acts' (f this args w).2 = Some w'' ->
          fire demo_fenv VUndefined old w'' = None.
Proof.
  assert (wf_world w_busy) as Hwf.
  { intros id cb d H. simpl in H.
    apply lookup_singleton_Some in H as [<- [= <- <-]]. split; [simpl; lia|exact I]. }
  split; [exact Hwf|].
  exact (rateLimit_single_outstanding demo_fenv VUndefined 100 (VFun 0%nat)
           w_busy Hwf).
Defined.

(** [rateLimit(100, f0)] called twice before any timer fires: the first
    call's timer is gone, the second's fires with the second call's
    arguments, and the first can no longer fire. *)
Example rateLimit_two_calls :
  match rateLimit demo_fenv 100 (VFun 0%nat) w_busy with
  | (Ret f, w1) =>
      (log <$> run demo_fenv VUndefined f
         [CallWrapped VUndefined [VNum 1]; CallWrapped VUndefined [VNum 2];
          TimerFires 2%nat] w1)
        = Some [Invoke 0%nat VGlobal [VNum 2]] /\
      run demo_fenv VUndefined f
         [CallWrapped VUndefined [VNum 1]; CallWrapped VUndefined [VNum 2];
          TimerFires 1%nat] w1 = None
  | _ => False
  end.
Proof. vm_compute. split; reflexivity. Qed.

(** * The further properties on the sample caller *)

Lemma when_target_not_callable_witness :
  primitive (VNum 42) = true /\
  when (call demo_fenv (VFun 1%nat)) (call demo_fenv (VNum 42))
       [VStr "a"] (VObj 7) [VStr "b"] w_start
  = (Throw not_a_function, World 1 [Invoke 1%nat VUndefined []] ∅ ∅ ∅ 0%nat)
  /\
  when (call demo_fenv (VFun 1%nat)) (call demo_fenv (VNum 42))
       [VStr "a"] (VObj 7) [VStr "b"] (World 1 [] ∅ ∅ ∅ 0%nat)
  = (Ret VUndefined, World 2 [Invoke 1%nat VUndefined []] ∅ ∅ ∅ 0%nat).
Proof.
  split; [reflexivity|]. split.
  - exact (proj1 (when_target_not_callable demo_fenv 1%nat (VNum 42)
                    [VStr "a"] [VStr "b"] (VObj 7) w_start
                    (Ret (VBool true)) 1 eq_refl eq_refl)
                 (VBool true) eq_refl eq_refl).
  - exact (proj2 (when_target_not_callable demo_fenv 1%nat (VNum 42)
                    [VStr "a"] [VStr "b"] (VObj 7) (World 1 [] ∅ ∅ ∅ 0%nat)
                    (Ret (VBool false)) 2 eq_refl eq_refl)
                 (VBool false) eq_refl eq_refl).
Defined.

Lemma counts_counter_saturates_witness :
  0 <= 2 /\
  exists l f w1,
    counts 2 (call demo_fenv (VFun 0%nat)) [VStr "Hello"] w_start = (Ret f, w1) /\
    counters w_start !! l = None /\
    counters w1 !! l = Some 0 /\
    counters (run_calls f three_calls w1).2 !! l
    = Some (Z.min (Z.of_nat (length three_calls)) 2).
Proof.
  split; [lia|].
  apply (counts_counter_saturates demo_fenv 2 (VFun 0%nat)). lia.
Defined.

Lemma counts_negative_never_fires_witness :
  -1 < 0 /\
  exists f w1,
    counts (-1) (call demo_fenv (VFun 0%nat)) [VStr "Hello"] w_start
      = (Ret f, w1) /\
    (run_calls f three_calls w1).1
      = repeat (Ret VUndefined, []) (length three_calls) /\
    log (run_calls f three_calls w1).2 = log w_start /\
    host (run_calls f three_calls w1).2 = host w_start.
Proof.
  split; [lia|].
  apply (counts_negative_never_fires demo_fenv (-1) (VFun 0%nat)). lia.
Defined.

Lemma debounce_nonzero_period_witness :
  -2 <> 0 /\
  exists f w1,
    debounce (-2) (call demo_fenv (VFun 0%nat)) [VStr "Log!"] w_start
      = (Ret f, w1) /\
    forall k this args, four_calls !! k = Some (this, args) ->
      exists r evs,
        (run_calls f four_calls w1).1 !! k = Some (r, evs) /\
        ((-2 | Z.of_nat k + 1) ->
           evs = [Invoke 0%nat (sloppy_this this) ([VStr "Log!"] ++ args)]) /\
        (~ (-2 | Z.of_nat k + 1) -> r = Ret VUndefined /\ evs = []).
Proof.
  split; [lia|].
  apply (debounce_nonzero_period demo_fenv (-2) 0%nat). lia.
Defined.

(** [debounce(-2, f0, 'Log!')] called four times fires on calls 2 and 4. *)
Example debounce_negative_two_four_calls :
  match debounce (-2) (call demo_fenv (VFun 0%nat)) [VStr "Log!"] w_start with
  | (Ret f, w1) =>
      map snd (run_calls f four_calls w1).1 =
      [[]; [Invoke 0%nat (VObj 2) [VStr "Log!"]];
       []; [Invoke 0%nat (VObj 4) [VStr "Log!"; VStr "Hi"]]]
  | _ => False
  end.
Proof. vm_compute. reflexivity. Qed.

Lemma times_nonpositive_count_witness :
  -3 <= 0 /\
  times (-3) (call demo_fenv (VFun 0%nat)) [VStr "x"] (VObj 1) [VNum 9] w_start
  = (Ret (VArray []), w_start).
Proof.
  split; [lia|].
  apply (times_nonpositive_count (-3) (call demo_fenv (VFun 0%nat))). lia.
Defined.



Lemma wf_world_busy : wf_world w_busy.
Proof.
  intros id cb d H. simpl in H.
  apply lookup_singleton_Some in H as [<- [= <- <-]]. split; [simpl; lia|exact I].
Defined.


Lemma rateLimit_cancel_witness :
  wf_world w_busy /\
  exists env f w1,
    rateLimit demo_fenv 100 (VFun 0%nat) w_busy = (Ret f, w1) /\
    forall acts w, run demo_fenv VUndefined f acts w1 = Some w ->
      forall this args, exists id wc,
        (f this args w).1 = Ret (VClear id) /\
        outstanding env (f this args w).2
          = {[ id := (LimitedCb env (VFun 0%nat) args, 100) ]} /\
        call demo_fenv (VClear id) VUndefined [] (f this args w).2
          = (Ret VUndefined, wc) /\
        outstanding env wc = ∅ /\
        log wc = log w /\
        forall acts' w'', run demo_fenv VUndefined f acts' wc = Some w'' ->
          fire demo_fenv VUndefined id w'' = None.
Proof.
  split; [exact wf_world_busy|].
  exact (rateLimit_cancel demo_fenv VUndefined 100 (VFun 0%nat) w_busy
           wf_world_busy).
Defined.

Lemma rateLimit_stale_handle_harmless_witness :
  wf_world w_busy /\
  exists env f w1,
    rateLimit demo_fenv 100 (VFun 0%nat) w_busy = (Ret f, w1) /\
    forall acts w, run demo_fenv VUndefined f acts w1 = Some w ->
      forall this1 args1 acts' w2,
        run demo_fenv VUndefined f acts' (f this1 args1 w).2 = Some w2 ->
        forall this2 args2, exists id1 id2,
          (f this1 args1 w).1 = Ret (VClear id1) /\
          (f this2 args2 w2).1 = Ret (VClear id2) /\
          id1 <> id2 /\
          call demo_fenv (VClear id1) VUndefined [] (f this2 args2 w2).2
          = (Ret VUndefined, (f this2 args2 w2).2) /\
          outstanding env (f this2 args2 w2).2
          = {[ id2 := (LimitedCb env (VFun 0%nat) args2, 100) ]}.
Proof.
  split; [exact wf_world_busy|].
  exact (rateLimit_stale_handle_harmless demo_fenv VUndefined 100 (VFun 0%nat)
           w_busy wf_world_busy).
Defined.

Lemma rateLimit_target_not_validated_witness :
  primitive (VNum 42) = true /\ wf_world w_busy /\
  exists env f w1,
    rateLimit demo_fenv 100 (VNum 42) w_busy = (Ret f, w1) /\
    forall acts w, run demo_fenv VUndefined f acts w1 = Some w ->
      forall this args, exists id w'',
        (f this args w).1 = Ret (VClear id) /\
        outstanding env (f this args w).2
          = {[ id := (LimitedCb env (VNum 42) args, 100) ]} /\
        fire demo_fenv VUndefined id (f this args w).2
          = Some (Throw not_a_function, w'') /\
        log w'' = log w /\ host w'' = host w.
Proof.
  split; [reflexivity|]. split; [exact wf_world_busy|].
  exact (rateLimit_target_not_validated demo_fenv VUndefined 100 (VNum 42)
           w_busy eq_refl wf_world_busy).
Defined.


(** Three calls, of which the first and the third get to fire: two
    firings of the instance, and the caller's own timer is not counted. *)
Example rateLimit_two_of_three_fire :
  match rateLimit demo_fenv 100 (VFun 0%nat) w_busy with
  | (Ret f, w1) =>
      own_firings demo_fenv VUndefined (fresh (dom (clears w_busy))) f
        [CallWrapped VUndefined [VNum 1]; TimerFires 1%nat;
         CallWrapped VUndefined [VNum 2]; CallWrapped VUndefined [];
         TimerFires 3%nat; TimerFires 0%nat] w1 = 2%nat
  | _ => False
  end.
Proof. vm_compute. reflexivity. Qed.

Lemma rateLimit_keeps_foreign_timers_witness :
  wf_world w_busy /\
  exists env f w1,
    rateLimit demo_fenv 100 (VFun 0%nat) w_busy = (Ret f, w1) /\
    forall acts w, run demo_fenv VUndefined f acts w1 = Some w ->
      forall this args (id : timer_id) t,
        timers w !! id = Some t -> owned_by env t = false ->
        timers (f this args w).2 !! id = Some t.
Proof.
  split; [exact wf_world_busy|].
  exact (rateLimit_keeps_foreign_timers demo_fenv VUndefined 100 (VFun 0%nat)
           w_busy wf_world_busy).
Defined.

(** * Where the caller's receiver is not what the target gets *)

(** C2 (counterexample).  Forwarding the caller's receiver as it is fails
    for a receiver that is not an object: called on the number 5 the wrapped
    function of [when] invokes the target on the wrapper object of 5, and
    called with no receiver it invokes the target on the global object. *)
Lemma when_receiver_counterexample :
  new_events w_start
    (when (call demo_fenv (VFun 1%nat)) (call demo_fenv (VFun 0%nat))
          [VStr "Hello World"] (VNum 5) [VStr "boom"] w_start).2
  = [Invoke 1%nat VUndefined [];
     Invoke 0%nat (VBoxed (VNum 5)) [VStr "Hello World"; VStr "boom"]] /\
  new_events w_start
    (when (call demo_fenv (VFun 1%nat)) (call demo_fenv (VFun 0%nat))
          [VStr "Hello World"] VUndefined [VStr "boom"] w_start).2
  = [Invoke 1%nat VUndefined [];
     Invoke 0%nat VGlobal [VStr "Hello World"; VStr "boom"]] /\
  VBoxed (VNum 5) <> VNum 5 /\ VGlobal <> VUndefined.
Proof.
  split; [vm_compute; reflexivity|]. split; [vm_compute; reflexivity|].
  split; discriminate.
Qed.

(** C9 (counterexample).  The same for [times]: called on the number 5
    the wrapped function makes each repetition on the wrapper object of 5,
    and called with no receiver on the global object. *)
Lemma times_receiver_counterexample :
  new_events w_start
    (times 2 (call demo_fenv (VFun 0%nat)) [VStr "x"] (VNum 5) [] w_start).2
  = [Invoke 0%nat (VBoxed (VNum 5)) [VStr "x"];
     Invoke 0%nat (VBoxed (VNum 5)) [VStr "x"]] /\
  new_events w_start
    (times 2 (call demo_fenv (VFun 0%nat)) [VStr "x"] VUndefined [] w_start).2
  = [Invoke 0%nat VGlobal [VStr "x"]; Invoke 0%nat VGlobal [VStr "x"]] /\
  VBoxed (VNum 5) <> VNum 5 /\ VGlobal <> VUndefined.
Proof.
  split; [vm_compute; reflexivity|]. split; [vm_compute; reflexivity|].
  split; discriminate.
Qed.
